(** * Tele-Clone: the conversation/message store, the REST surface and the
      push fan-out hub

    A shallow embedding of [server/storage.ts], [server/routes.ts] and the
    parts of [shared/schema.ts] and [shared/routes.ts] they rely on, together
    with the properties of the specification that concern them.

    The persistence layer is modelled as a record of tables.  A table is the
    list of its rows in insertion order; a statement is a function on that
    record, and the methods of [DatabaseStorage] are written in a small state
    and exception monad that threads the database through the statements the
    way the [await]s of the source do. *)

From stdpp Require Import gmap strings list sorting.
From Stdlib Require Import ZArith Ascii.

Open Scope Z_scope.

(* ===================================================================== *)
(** * Data model ([shared/schema.ts]) *)
(* ===================================================================== *)

(** Modelled from the spec: the [users] table is declared in
    [shared/models/auth.ts], which is not among the sources.  The columns
    kept are the ones the store reads ([users.id], [users.email],
    [users.firstName], [users.lastName]); [id] is the key the other tables
    reference, the name columns are nullable. *)
Record User := mkUser {
  user_id : string;
  user_email : option string;
  user_firstName : option string;
  user_lastName : option string;
}.

(** [conversations]: serial [id], nullable [name], [is_group] (default
    false), [created_at] (default now). Timestamps are milliseconds since the
    epoch, as [Date.getTime] reports them. *)
Record Conversation := mkConversation {
  conv_id : Z;
  conv_name : option string;
  conv_isGroup : bool;
  conv_createdAt : Z;
}.

(** [conversation_members]: serial [id], [conversation_id] references
    [conversations.id], [user_id] references [users.id]. *)
Record ConversationMember := mkConversationMember {
  member_id : Z;
  member_conversationId : Z;
  member_userId : string;
  member_joinedAt : Z;
}.

(** [messages]: serial [id], [conversation_id] references
    [conversations.id], [sender_id] references [users.id]. *)
Record Message := mkMessage {
  msg_id : Z;
  msg_conversationId : Z;
  msg_senderId : string;
  msg_content : string;
  msg_createdAt : Z;
}.

(** [contacts]: serial [id], [user_id] and [contact_id] reference
    [users.id]. *)
Record Contact := mkContact {
  contact_id : Z;
  contact_userId : string;
  contact_contactId : string;
  contact_createdAt : Z;
}.

#[global] Instance User_eq_dec : EqDecision User.
Proof. solve_decision. Defined.
#[global] Instance Conversation_eq_dec : EqDecision Conversation.
Proof. solve_decision. Defined.
#[global] Instance ConversationMember_eq_dec : EqDecision ConversationMember.
Proof. solve_decision. Defined.
#[global] Instance Message_eq_dec : EqDecision Message.
Proof. solve_decision. Defined.
#[global] Instance Contact_eq_dec : EqDecision Contact.
Proof. solve_decision. Defined.

(** The database: the five tables and the next value of each serial
    sequence. *)
Record DB := mkDB {
  users : list User;
  conversations : list Conversation;
  conversationMembers : list ConversationMember;
  messages : list Message;
  contacts : list Contact;
  conversations_seq : Z;
  conversationMembers_seq : Z;
  messages_seq : Z;
  contacts_seq : Z;
}.

(** A database holding the given users and nothing else; serial columns
    start at 1. *)
Definition initial_db (us : list User) : DB :=
  mkDB us [] [] [] [] 1 1 1 1.

(* ===================================================================== *)
(** * Exceptions and the store monad *)
(* ===================================================================== *)

(** What the code can throw: a plain [Error] with its message, an error
    raised by the database driver, or a [ZodError] from a schema's
    [parse]. *)
Inductive Exn :=
  | JsError (message : string)
  | DbError (message : string)
  | ZodError (message : string).

(** [err instanceof Error]: each of the three classes extends [Error]. *)
Definition instanceof_Error (e : Exn) : bool :=
  match e with
  | JsError _ | DbError _ | ZodError _ => true
  end.

(** [err.message] *)
Definition exn_message (e : Exn) : string :=
  match e with
  | JsError m | DbError m | ZodError m => m
  end.

Inductive Result (A : Type) :=
  | Ok (a : A)
  | Throw (e : Exn).
Arguments Ok {A} a.
Arguments Throw {A} e.

(** A store computation runs against a database and leaves a database
    behind, also when it throws: every statement is committed on its own,
    no method of [DatabaseStorage] opens a transaction. *)
Definition Store (A : Type) : Type := DB -> Result A * DB.

Definition ret {A} (a : A) : Store A := fun db => (Ok a, db).
Definition throw {A} (e : Exn) : Store A := fun db => (Throw e, db).
Definition bind {A B} (c : Store A) (k : A -> Store B) : Store B :=
  fun db =>
    match c db with
    | (Ok a, db') => k a db'
    | (Throw e, db') => (Throw e, db')
    end.
Definition query {A} (q : DB -> A) : Store A := fun db => (Ok (q db), db).

#[global] Instance Store_ret : MRet Store := @ret.
#[global] Instance Store_bind : MBind Store := fun A B k c => bind c k.

(* ===================================================================== *)
(** * Query building blocks *)
(* ===================================================================== *)

(** [ORDER BY] and [Array.prototype.sort]: a stable insertion sort under a
    boolean "comes no later than" test; rows that tie keep the order they
    have in the table.  The sort of JavaScript is stable.  The database
    promises no order among the rows that tie: what is stated of a page of
    messages in a given order asks for creation times that differ. *)
Section Sorting.
Context {A : Type} (before : A -> A -> bool).

Fixpoint insert_sorted (x : A) (l : list A) : list A :=
  match l with
  | [] => [x]
  | y :: l' => if before x y then x :: y :: l' else y :: insert_sorted x l'
  end.

Fixpoint orderBy (l : list A) : list A :=
  match l with
  | [] => []
  | x :: l' => insert_sorted x (orderBy l')
  end.
End Sorting.

(** [asc(col)] and [desc(col)] on an integer column. *)
Definition asc {A} (col : A -> Z) (a b : A) : bool := col a <=? col b.
Definition desc {A} (col : A -> Z) (a b : A) : bool := col b <=? col a.

(** [a.innerJoin(b, eq(ca, cb))]: the pairs of a row of [a] and a row of
    [b] that agree on the two columns, in the order of [a]. *)
Definition innerJoin {A B K} `{EqDecision K} (a : list A) (b : list B)
    (ca : A -> K) (cb : B -> K) : list (A * B) :=
  x ← a; (fun y => (x, y)) <$> filter (fun y => ca x = cb y) b.

(** [const [row] = await ...]: the first row, [undefined] when there is
    none. *)
Definition first_row {A} (rows : list A) : option A := head rows.

(* ===================================================================== *)
(** * Statements *)
(* ===================================================================== *)

Definition user_exists (db : DB) (id : string) : Prop :=
  id ∈ user_id <$> users db.
Definition conversation_exists (db : DB) (id : Z) : Prop :=
  id ∈ conv_id <$> conversations db.

#[global] Instance user_exists_dec db id : Decision (user_exists db id).
Proof. unfold user_exists. apply _. Defined.
#[global] Instance conversation_exists_dec db id :
  Decision (conversation_exists db id).
Proof. unfold conversation_exists. apply _. Defined.

(** Consecutive values of a serial sequence. *)
Fixpoint number_from {A B} (n : Z) (mk : Z -> A -> B) (l : list A) : list B :=
  match l with
  | [] => []
  | x :: l' => mk n x :: number_from (n + 1) mk l'
  end.

Definition fk_violation (table : string) : Exn :=
  DbError ("insert or update on table " +:+ table
             +:+ " violates foreign key constraint").

(** [db.insert(conversations).values({ isGroup }).returning()].  The table
    references no other, the statement cannot fail. *)
Definition insert_conversation (isGroup : bool) (now : Z) : Store Conversation :=
  fun db =>
    let row := mkConversation (conversations_seq db) None isGroup now in
    (Ok row,
     mkDB (users db) (conversations db ++ [row]) (conversationMembers db)
          (messages db) (contacts db)
          (conversations_seq db + 1) (conversationMembers_seq db)
          (messages_seq db) (contacts_seq db)).

(** [db.insert(conversationMembers).values([...])]: one statement for all
    the rows.  When a row breaks a foreign key the statement fails as a
    whole and inserts nothing; the sequence values it drew are not given
    back. *)
Definition insert_conversationMembers (rows : list (Z * string)) (now : Z)
    : Store unit :=
  fun db =>
    let n := Z.of_nat (length rows) in
    if decide (Forall (fun r => conversation_exists db r.1 /\ user_exists db r.2) rows)
    then
      (Ok tt,
       mkDB (users db) (conversations db)
            (conversationMembers db ++
               number_from (conversationMembers_seq db)
                 (fun i r => mkConversationMember i r.1 r.2 now) rows)
            (messages db) (contacts db)
            (conversations_seq db) (conversationMembers_seq db + n)
            (messages_seq db) (contacts_seq db))
    else
      (Throw (fk_violation "conversation_members"),
       mkDB (users db) (conversations db) (conversationMembers db)
            (messages db) (contacts db)
            (conversations_seq db) (conversationMembers_seq db + n)
            (messages_seq db) (contacts_seq db)).

(** The double quote, for the texts that hold one. *)
Definition quote : string := String "034" EmptyString.

(** A [text] value cannot hold the character U+0000: the database refuses
    the insert of a message whose content holds it, when the parameter is
    bound and before anything is executed. *)
Fixpoint has_nul (s : string) : bool :=
  match s with
  | EmptyString => false
  | String c s' => Ascii.eqb c "000" || has_nul s'
  end.

Definition invalid_byte_sequence : Exn :=
  DbError ("invalid byte sequence for encoding " +:+ quote +:+ "UTF8"
             +:+ quote +:+ ": 0x00").

(** [db.insert(messages).values({ senderId, conversationId, content })
    .returning()]. *)
Definition insert_message (senderId : string) (conversationId : Z)
    (content : string) (now : Z) : Store Message :=
  fun db =>
    let row := mkMessage (messages_seq db) conversationId senderId content now in
    if has_nul content then (Throw invalid_byte_sequence, db)
    else if decide (conversation_exists db conversationId /\ user_exists db senderId)
    then
      (Ok row,
       mkDB (users db) (conversations db) (conversationMembers db)
            (messages db ++ [row]) (contacts db)
            (conversations_seq db) (conversationMembers_seq db)
            (messages_seq db + 1) (contacts_seq db))
    else
      (Throw (fk_violation "messages"),
       mkDB (users db) (conversations db) (conversationMembers db)
            (messages db) (contacts db)
            (conversations_seq db) (conversationMembers_seq db)
            (messages_seq db + 1) (contacts_seq db)).

(** [db.insert(contacts).values({ userId, contactId })]. *)
Definition insert_contact (userId contactId : string) (now : Z) : Store unit :=
  fun db =>
    let row := mkContact (contacts_seq db) userId contactId now in
    if decide (user_exists db userId /\ user_exists db contactId)
    then
      (Ok tt,
       mkDB (users db) (conversations db) (conversationMembers db)
            (messages db) (contacts db ++ [row])
            (conversations_seq db) (conversationMembers_seq db)
            (messages_seq db) (contacts_seq db + 1))
    else
      (Throw (fk_violation "contacts"),
       mkDB (users db) (conversations db) (conversationMembers db)
            (messages db) (contacts db)
            (conversations_seq db) (conversationMembers_seq db)
            (messages_seq db) (contacts_seq db + 1)).

(* ===================================================================== *)
(** * SQL [LIKE] and JavaScript numbers *)
(* ===================================================================== *)





(** A JavaScript number as the code meets it: [NaN] or an integer.
    (Integers are kept exact; the rounding of digit strings beyond 2^53 is
    not modelled.) *)
Inductive number :=
  | NaN
  | Num (z : Z).

#[global] Instance number_eq_dec : EqDecision number.
Proof. solve_decision. Defined.

(** The white space and line terminators of ECMAScript that take one byte:
    TAB, LF, VT, FF, CR and the space. *)
Definition is_whitespace (c : ascii) : bool :=
  let n := nat_of_ascii c in
  (Nat.eqb n 32 || (Nat.leb 9 n && Nat.leb n 13))%nat.

(** U+00A0, the no-break space: [C2 A0]. *)
Definition is_whitespace2 (c d : ascii) : bool :=
  (Nat.eqb (nat_of_ascii c) 194 && Nat.eqb (nat_of_ascii d) 160)%nat.

(** The ones that take three bytes: U+1680 [E1 9A 80], U+2000 to U+200A
    [E2 80 80] to [E2 80 8A], U+2028 and U+2029 [E2 80 A8], [E2 80 A9],
    U+202F [E2 80 AF], U+205F [E2 81 9F], U+3000 [E3 80 80] and U+FEFF
    [EF BB BF]. *)
Definition is_whitespace3 (c d e : ascii) : bool :=
  let c := nat_of_ascii c in
  let d := nat_of_ascii d in
  let e := nat_of_ascii e in
  (Nat.eqb c 225 && Nat.eqb d 154 && Nat.eqb e 128
   || Nat.eqb c 226 && Nat.eqb d 128
      && (Nat.leb 128 e && Nat.leb e 138
          || Nat.eqb e 168 || Nat.eqb e 169 || Nat.eqb e 175)
   || Nat.eqb c 226 && Nat.eqb d 129 && Nat.eqb e 159
   || Nat.eqb c 227 && Nat.eqb d 128 && Nat.eqb e 128
   || Nat.eqb c 239 && Nat.eqb d 187 && Nat.eqb e 191)%nat.

Fixpoint trim_start (s : string) : string :=
  match s with
  | EmptyString => EmptyString
  | String c s1 =>
      if is_whitespace c then trim_start s1
      else
        match s1 with
        | EmptyString => s
        | String d s2 =>
            if is_whitespace2 c d then trim_start s2
            else
              match s2 with
              | EmptyString => s
              | String e s3 =>
                  if is_whitespace3 c d e then trim_start s3 else s
              end
        end
  end.

Definition digit_value (c : ascii) : option Z :=
  let n := Z.of_nat (nat_of_ascii c) in
  if (48 <=? n) && (n <=? 57) then Some (n - 48)
  else if (97 <=? n) && (n <=? 122) then Some (n - 87)
  else if (65 <=? n) && (n <=? 90) then Some (n - 55)
  else None.

(** The value of the longest prefix of digits of the radix, [None] when
    that prefix is empty. *)
Fixpoint parse_digits (radix : Z) (s : string) (acc : option Z) : option Z :=
  match s with
  | EmptyString => acc
  | String c s' =>
      match digit_value c with
      | Some d =>
          if d <? radix
          then parse_digits radix s' (Some (default 0 acc * radix + d))
          else acc
      | None => acc
      end
  end.

(** [parseInt(s)] without a radix: leading white space, a sign, a [0x]
    prefix, then digits; anything after them is ignored. *)
Definition parseInt (s : string) : number :=
  let s := trim_start s in
  let '(sign, s) :=
    match s with
    | String c s' =>
        if Ascii.eqb c "-" then (-1, s')
        else if Ascii.eqb c "+" then (1, s')
        else (1, s)
    | EmptyString => (1, s)
    end in
  let '(radix, s) :=
    match s with
    | String z (String x s') =>
        if Ascii.eqb z "0" && (Ascii.eqb x "x" || Ascii.eqb x "X")
        then (16, s') else (10, s)
    | _ => (10, s)
    end in
  match parse_digits radix s None with
  | Some n => Num (sign * n)
  | None => NaN
  end.

(** [.limit(limit)]: the query builder writes a [LIMIT] clause for a
    number that is at least 0 and leaves the clause out for any other, a
    negative one and [NaN] included; the query then returns every row. *)
Definition apply_limit {A} (limit : number) (rows : list A) : list A :=
  match limit with
  | Num l => if decide (0 <= l) then take (Z.to_nat l) rows else rows
  | NaN => rows
  end.

(** [.limit(limit).offset(offset)] over the rows of a query.  The builder
    writes an [OFFSET] clause for a truthy number, so neither for 0 nor for
    [NaN]; the database rejects a negative offset.  (It also rejects a
    count beyond the range of [bigint]; that is not modelled, see
    [in_bigint].) *)
Definition limit_offset {A} (limit offset : number) (rows : list A)
    : Result (list A) :=
  match offset with
  | Num o =>
      if decide (o < 0) then Throw (DbError "OFFSET must not be negative")
      else Ok (apply_limit limit (drop (Z.to_nat o) rows))
  | NaN => Ok (apply_limit limit rows)
  end.

(** The counts that [LIMIT] and [OFFSET] take are values of [bigint]: what
    is stated below of the answer to a request with a limit or an offset
    is stated of numbers up to the largest of them. *)
Definition max_bigint : Z := 9223372036854775807.


(* ===================================================================== *)
(** * The store ([server/storage.ts], class [DatabaseStorage]) *)
(* ===================================================================== *)

(** [Conversation & { lastMessage?, unreadCount?, otherMember? }] *)
Record ConversationSummary := mkSummary {
  summary_conversation : Conversation;
  lastMessage : option Message;
  unreadCount : Z;
  otherMember : option User;
}.

(** [Conversation & { members: User[] }] *)
Record ConversationWithMembers := mkWithMembers {
  members_conversation : Conversation;
  members : list User;
}.

(** [Message & { sender: User }] *)
Record MessageWithSender := mkWithSender {
  sender_message : Message;
  sender : User;
}.

Definition getContacts (userId : string) : Store (list User) :=
  userContacts ← query (fun db =>
    filter (fun r => contact_userId r.1 = userId)
      (innerJoin (contacts db) (users db) contact_contactId user_id));
  mret (snd <$> userContacts).

Definition addContact (userId contactUsername : string) (now : Z)
    : Store User :=
  found ← query (fun db =>
    first_row (filter (fun u => user_email u = Some contactUsername) (users db)));
  match found with
  | None => throw (JsError "User not found")
  | Some contactUser =>
      if decide (user_id contactUser = userId)
      then throw (JsError "Cannot add yourself as a contact")
      else
        existing ← query (fun db =>
          first_row (filter (fun c => contact_userId c = userId /\
                                      contact_contactId c = user_id contactUser)
                       (contacts db)));
        match existing with
        | Some _ => mret contactUser
        | None =>
            insert_contact userId (user_id contactUser) now;;
            mret contactUser
        end
  end.

(** The last message of a conversation:
    [orderBy(desc(messages.createdAt)).limit(1)]. *)
Definition last_message (db : DB) (conversationId : Z) : option Message :=
  first_row (take 1 (orderBy (desc msg_createdAt)
    (filter (fun m => msg_conversationId m = conversationId) (messages db)))).

(** The other member of a direct conversation: the first membership row of
    another user, joined with that user. *)
Definition other_member (db : DB) (conversationId : Z) (userId : string)
    : option User :=
  snd <$> first_row
    (filter (fun r => member_conversationId r.1 = conversationId /\
                      member_userId r.1 <> userId)
       (innerJoin (conversationMembers db) (users db) member_userId user_id)).

(** Step 3 of [getConversations], for one conversation. *)
Definition enrich (db : DB) (userId : string) (conv : Conversation)
    : ConversationSummary :=
  let lastMsg := last_message db (conv_id conv) in
  let otherMember :=
    if conv_isGroup conv then None else other_member db (conv_id conv) userId in
  mkSummary conv lastMsg 0 otherMember.

(** [a.lastMessage?.createdAt.getTime() || a.createdAt.getTime()]: the
    right operand is taken when there is no last message and also when its
    time is 0, which is falsy. *)
Definition sort_time (a : ConversationSummary) : Z :=
  match lastMessage a with
  | Some m =>
      if decide (msg_createdAt m = 0)
      then conv_createdAt (summary_conversation a)
      else msg_createdAt m
  | None => conv_createdAt (summary_conversation a)
  end.

(** The comparator [(a, b) => timeB - timeA] read as "a may stay before
    b": its value is not positive. *)
Definition newest_first (a b : ConversationSummary) : bool :=
  sort_time b - sort_time a <=? 0.

Definition getConversations (userId : string)
    : Store (list ConversationSummary) :=
  memberships ← query (fun db =>
    filter (fun m => member_userId m = userId) (conversationMembers db));
  let conversationIds := member_conversationId <$> memberships in
  if decide (length conversationIds = 0%nat) then mret []
  else
    userConversations ← query (fun db =>
      orderBy (desc conv_createdAt)
        (filter (fun c => Exists (fun id => conv_id c = id) conversationIds)
           (conversations db)));
    enriched ← query (fun db => enrich db userId <$> userConversations);
    mret (orderBy newest_first enriched).

Definition getConversation (id : Z) : Store (option ConversationWithMembers) :=
  found ← query (fun db =>
    first_row (filter (fun c => conv_id c = id) (conversations db)));
  match found with
  | None => mret None
  | Some conversation =>
      rows ← query (fun db =>
        filter (fun r => member_conversationId r.1 = id)
          (innerJoin (conversationMembers db) (users db) member_userId user_id));
      mret (Some (mkWithMembers conversation (snd <$> rows)))
  end.

(** The two inserts are two statements; [createdAt] and [joinedAt] are the
    database clock at each of them. *)
Definition createConversation (userId participantId : string)
    (createdAt joinedAt : Z) : Store Conversation :=
  newConv ← insert_conversation false createdAt;
  insert_conversationMembers
    [(conv_id newConv, userId); (conv_id newConv, participantId)] joinedAt;;
  mret newConv.

(** [limit = 50, offset = 0]: a default is taken when the argument is
    omitted. *)
Definition getMessages (conversationId : Z) (limit offset : option number)
    : Store (list MessageWithSender) :=
  let limit := default (Num 50) limit in
  let offset := default (Num 0) offset in
  fun db =>
    let rows :=
      orderBy (asc (fun r : Message * User => msg_createdAt r.1))
        (filter (fun r => msg_conversationId r.1 = conversationId)
           (innerJoin (messages db) (users db) msg_senderId user_id)) in
    match limit_offset limit offset rows with
    | Ok msgs => (Ok ((fun m => mkWithSender m.1 m.2) <$> msgs), db)
    | Throw e => (Throw e, db)
    end.

Definition createMessage (senderId : string) (conversationId : Z)
    (content : string) (now : Z) : Store Message :=
  insert_message senderId conversationId content now.


(* ===================================================================== *)
(** * The push hub ([server/routes.ts], [clients] and the [wss] handlers) *)
(* ===================================================================== *)

(** A [WebSocket] object is known by its identity. *)
Definition WebSocket := nat.

Inductive ReadyState := CONNECTING | OPEN | CLOSING | CLOSED.

#[global] Instance ReadyState_eq_dec : EqDecision ReadyState.
Proof. solve_decision. Defined.

(** [{ type: "message:new", data: message }], the payload of a send. *)
Record Envelope := mkEnvelope {
  envelope_type : string;
  envelope_data : Message;
}.

(** The hub: the map [clients] from a conversation id to its set of
    sockets (a [Set] keeps insertion order and holds a socket once), what is
    stored on the socket objects (their [readyState], and the
    [conversationId] the join handler records on them), and the log of the
    calls of [client.send]. *)
Record Hub := mkHub {
  clients : gmap Z (list WebSocket);
  readyState : gmap WebSocket ReadyState;
  ws_conversationId : gmap WebSocket Z;
  sent : list (WebSocket * Envelope);
}.

Definition hub_init : Hub := mkHub ∅ ∅ ∅ [].

(** [Set.prototype.add] and [Set.prototype.delete]. *)
Definition set_add (ws : WebSocket) (s : list WebSocket) : list WebSocket :=
  if decide (ws ∈ s) then s else s ++ [ws].
Definition set_delete (ws : WebSocket) (s : list WebSocket) : list WebSocket :=
  filter (fun x => x <> ws) s.

(** What [JSON.parse(data.toString())] gives the message handler: it
    throws, or it yields an object whose [type] and [conversationId] are
    read.  The conversation id is a number, as the type of [clients]
    declares its keys. *)
Inductive WsData :=
  | Malformed
  | Parsed (type : string) (conversationId : Z).

#[global] Instance WsData_eq_dec : EqDecision WsData.
Proof. solve_decision. Defined.

(** [ws.on("message", ...)] *)
Definition on_message (ws : WebSocket) (data : WsData) (h : Hub) : Hub :=
  match data with
  | Malformed => h
  | Parsed type conversationId =>
      if decide (type = "join") then
        let clients1 :=
          if decide (is_Some (clients h !! conversationId)) then clients h
          else <[conversationId := []]> (clients h) in
        let clients2 :=
          match clients1 !! conversationId with
          | Some s => <[conversationId := set_add ws s]> clients1
          | None => clients1
          end in
        mkHub clients2 (readyState h)
              (<[ws := conversationId]> (ws_conversationId h)) (sent h)
      else h
  end.

(** [ws.on("close", ...)]: [conversationId && clients.has(conversationId)];
    an id that is undefined or 0 is falsy. *)
Definition on_close (ws : WebSocket) (h : Hub) : Hub :=
  match ws_conversationId h !! ws with
  | Some conversationId =>
      if decide (conversationId <> 0) then
        match clients h !! conversationId with
        | Some s =>
            mkHub (<[conversationId := set_delete ws s]> (clients h))
                  (readyState h) (ws_conversationId h) (sent h)
        | None => h
        end
      else h
  | None => h
  end.

(** [broadcastMessage(conversationId, message)] *)
Definition broadcastMessage (conversationId : Z) (message : Message)
    (h : Hub) : Hub :=
  match clients h !! conversationId with
  | Some s =>
      let payload := mkEnvelope "message:new" message in
      let sends :=
        (fun client => (client, payload)) <$>
          filter (fun client => readyState h !! client = Some OPEN) s in
      mkHub (clients h) (readyState h) (ws_conversationId h) (sent h ++ sends)
  | None => h
  end.

(** What happens to the hub: a socket connects (it is open, and its
    handlers are registered), a frame arrives on it, its transport starts
    closing, it closes (the socket is closed when the close handler runs,
    and an object never serves a second connection), a message is
    broadcast. *)
Inductive Event :=
  | Connection (ws : WebSocket)
  | Frame (ws : WebSocket) (data : WsData)
  | Closing (ws : WebSocket)
  | Close (ws : WebSocket)
  | Broadcast (conversationId : Z) (message : Message).

#[global] Instance Event_eq_dec : EqDecision Event.
Proof. solve_decision. Defined.

Definition set_readyState (ws : WebSocket) (s : ReadyState) (h : Hub) : Hub :=
  mkHub (clients h) (<[ws := s]> (readyState h)) (ws_conversationId h) (sent h).

Definition hub_step (h : Hub) (e : Event) : Hub :=
  match e with
  | Connection ws =>
      if decide (is_Some (readyState h !! ws)) then h
      else set_readyState ws OPEN h
  | Frame ws data =>
      if decide (is_Some (readyState h !! ws)) then on_message ws data h else h
  | Closing ws =>
      if decide (readyState h !! ws = Some OPEN)
      then set_readyState ws CLOSING h else h
  | Close ws =>
      match readyState h !! ws with
      | Some CLOSED | None => h
      | Some _ => on_close ws (set_readyState ws CLOSED h)
      end
  | Broadcast conversationId message => broadcastMessage conversationId message h
  end.

Definition hub_run (h : Hub) (events : list Event) : Hub :=
  foldl hub_step h events.

(** The envelopes sent to a socket. *)
Definition delivered (ws : WebSocket) (log : list (WebSocket * Envelope))
    : list Envelope :=
  snd <$> filter (fun d => d.1 = ws) log.

(* ===================================================================== *)
(** * The REST surface ([server/routes.ts], [shared/routes.ts]) *)
(* ===================================================================== *)

(** What a handler does with a request: [res.status(s).json(body)] with
    the success body, [res.status(s).json({ message })], or no response at
    all when an exception leaves a handler that has no [try]. *)
Inductive Response (A : Type) :=
  | Json (status : Z) (body : A)
  | Failure (status : Z) (message : string)
  | Unhandled (e : Exn).
Arguments Json {A} status body.
Arguments Failure {A} status message.
Arguments Unhandled {A} e.

(** The [message] of a [ZodError] is the text of its list of issues,
    [JSON.stringify(issues, null, 2)]: here one issue, an object given by
    its members. *)
Definition newline : string := String "010" EmptyString.

Definition json_string (s : string) : string := quote +:+ s +:+ quote.

Definition json_member (key value : string) : string :=
  "    " +:+ json_string key +:+ ": " +:+ value.

Definition json_path (name : string) : string :=
  json_member "path"
    ("[" +:+ newline +:+ "      " +:+ json_string name +:+ newline +:+ "    ]").

Fixpoint json_members (members : list string) : string :=
  match members with
  | [] => EmptyString
  | m :: rest =>
      match rest with
      | [] => m
      | _ :: _ => m +:+ "," +:+ newline +:+ json_members rest
      end
  end.

Definition zod_message (members : list string) : string :=
  "[" +:+ newline +:+ "  {" +:+ newline +:+ json_members members
      +:+ newline +:+ "  }" +:+ newline +:+ "]".

(** The issue for a field that the request does not have. *)
Definition required (name : string) : Exn :=
  ZodError (zod_message
    [json_member "code" (json_string "invalid_type");
     json_member "expected" (json_string "string");
     json_member "received" (json_string "undefined");
     json_path name;
     json_member "message" (json_string "Required")]).

(** The issue for a string shorter than [min(1)] asks. *)
Definition too_small (name : string) : Exn :=
  ZodError (zod_message
    [json_member "code" (json_string "too_small");
     json_member "minimum" "1";
     json_member "type" (json_string "string");
     json_member "inclusive" "true";
     json_member "exact" "false";
     json_member "message"
       (json_string "String must contain at least 1 character(s)");
     json_path name]).

(** [z.object({ name: z.string() })] on the body of the request: [None]
    stands for a body without the field. *)
Definition z_string (name : string) (field : option string) : Result string :=
  match field with
  | Some s => Ok s
  | None => Throw (required name)
  end.

(** [z.object({ name: z.string().min(1) })] *)
Definition z_string_min1 (name : string) (field : option string)
    : Result string :=
  match field with
  | Some s => if decide (s = EmptyString) then Throw (too_small name) else Ok s
  | None => Throw (required name)
  end.

(** Lifts the result of a parse into the store monad. *)
Definition parsed {A} (r : Result A) : Store A := fun db => (r, db).

(** The values of an [integer] column, which the [serial] ids are. *)
Definition int4 (id : Z) : Prop := -2147483648 <= id <= 2147483647.

#[global] Instance int4_dec id : Decision (int4 id).
Proof. unfold int4. apply _. Defined.

(** An id read by [parseInt] and handed to a query on an integer column:
    the database rejects [NaN] and a number beyond the range of the
    column. *)
Definition with_id {A} (id : number) (k : Z -> Store A) : Store A :=
  match id with
  | Num id =>
      if decide (int4 id) then k id
      else throw (DbError "value is out of range for type integer")
  | NaN => throw (DbError "invalid input syntax for type integer")
  end.

(** [conversation.members.some(m => m.id === user.claims.sub)] *)
Definition is_member (sub : string) (conversation : ConversationWithMembers)
    : bool :=
  bool_decide (Exists (fun m => user_id m = sub) (members conversation)).

(** [req.query.limit ? parseInt(req.query.limit as string) : 50] and the
    same for [offset]: an absent or empty parameter is falsy.  The
    parameter is a string, as the cast of the source has it. *)
Definition query_number (param : option string) (otherwise : Z) : number :=
  match param with
  | Some s => if decide (s = EmptyString) then Num otherwise else parseInt s
  | None => Num otherwise
  end.

(** GET /api/contacts *)
Definition get_contacts (sub : string) (db : DB) : Response (list User) * DB :=
  match getContacts sub db with
  | (Ok contacts, db') => (Json 200 contacts, db')
  | (Throw e, db') => (Unhandled e, db')
  end.

(** POST /api/contacts *)
Definition post_contacts (sub : string) (username : option string) (now : Z)
    (db : DB) : Response User * DB :=
  match (username ← parsed (z_string "username" username);
         addContact sub username now) db with
  | (Ok contact, db') => (Json 201 contact, db')
  | (Throw err, db') =>
      if instanceof_Error err
      then (Failure 400 (exn_message err), db')
      else (Failure 500 "Internal server error", db')
  end.


(** GET /api/conversations *)
Definition get_conversations (sub : string) (db : DB)
    : Response (list ConversationSummary) * DB :=
  match getConversations sub db with
  | (Ok l, db') => (Json 200 l, db')
  | (Throw e, db') => (Unhandled e, db')
  end.

(** POST /api/conversations *)
Definition post_conversations (sub : string) (participantId : option string)
    (createdAt joinedAt : Z) (db : DB) : Response Conversation * DB :=
  match (participantId ← parsed (z_string "participantId" participantId);
         createConversation sub participantId createdAt joinedAt) db with
  | (Ok conversation, db') => (Json 201 conversation, db')
  | (Throw _, db') => (Failure 400 "Failed to create conversation", db')
  end.

(** GET /api/conversations/:id *)
Definition get_conversation (sub : string) (id : string) (db : DB)
    : Response ConversationWithMembers * DB :=
  match with_id (parseInt id) getConversation db with
  | (Ok None, db') => (Failure 404 "Conversation not found", db')
  | (Ok (Some conversation), db') =>
      if is_member sub conversation
      then (Json 200 conversation, db')
      else (Failure 401 "Unauthorized", db')
  | (Throw e, db') => (Unhandled e, db')
  end.

(** The arguments GET /api/conversations/:id/messages hands to
    [storage.getMessages]. *)
Definition messages_page (limit offset : option string) : number * number :=
  (query_number limit 50, query_number offset 0).

(** GET /api/conversations/:id/messages *)
Definition get_messages (sub : string) (id : string)
    (limit offset : option string) (db : DB)
    : Response (list MessageWithSender) * DB :=
  match with_id (parseInt id) getConversation db with
  | (Ok conversation, db') =>
      if match conversation with
         | Some conversation => is_member sub conversation
         | None => false
         end
      then
        let page := messages_page limit offset in
        match with_id (parseInt id)
                (fun id => getMessages id (Some page.1) (Some page.2)) db' with
        | (Ok msgs, db'') => (Json 200 msgs, db'')
        | (Throw e, db'') => (Unhandled e, db'')
        end
      else (Failure 401 "Unauthorized", db')
  | (Throw e, db') => (Unhandled e, db')
  end.

(** The server: the database and the hub. *)
Record Server := mkServer {
  server_db : DB;
  server_hub : Hub;
}.

(** POST /api/conversations/:id/messages: the message is stored, then
    broadcast, then returned. *)
Definition post_message (sub : string) (id : string) (content : option string)
    (now : Z) (s : Server) : Response Message * Server :=
  let db := server_db s in
  let failed db' :=
    (Failure 400 "Failed to send message", mkServer db' (server_hub s)) in
  match parsed (z_string_min1 "content" content) db with
  | (Throw _, db1) => failed db1
  | (Ok content, db1) =>
      match with_id (parseInt id) getConversation db1 with
      | (Throw _, db2) => failed db2
      | (Ok conversation, db2) =>
          if match conversation with
             | Some conversation => is_member sub conversation
             | None => false
             end
          then
            match with_id (parseInt id)
                    (fun id => message ← createMessage sub id content now;
                               mret (id, message)) db2 with
            | (Throw _, db3) => failed db3
            | (Ok (id, message), db3) =>
                (Json 201 message,
                 mkServer db3 (broadcastMessage id message (server_hub s)))
            end
          else (Failure 401 "Unauthorized", mkServer db2 (server_hub s))
      end
  end.


(* ===================================================================== *)
(** * The integrity constraints of the schema *)
(* ===================================================================== *)

(** What the database enforces on its own: the primary keys of [users] and
    [conversations], the serial ids of [conversations], and the foreign
    keys of the other three tables. *)
Record wf_db (db : DB) : Prop := mk_wf_db {
  users_pk : NoDup (user_id <$> users db);
  conversations_pk : NoDup (conv_id <$> conversations db);
  conversations_serial :
    Forall (fun c => conv_id c < conversations_seq db) (conversations db);
  conversationMembers_fk :
    Forall (fun m => conversation_exists db (member_conversationId m) /\
                     user_exists db (member_userId m))
      (conversationMembers db);
  messages_fk :
    Forall (fun m => conversation_exists db (msg_conversationId m) /\
                     user_exists db (msg_senderId m))
      (messages db);
  contacts_fk :
    Forall (fun c => user_exists db (contact_userId c) /\
                     user_exists db (contact_contactId c))
      (contacts db);
}.

(* ===================================================================== *)
(** * Notions used in the statements *)
(* ===================================================================== *)

(** The rows [createConversation] writes when both statements succeed. *)
Definition created_conversation (db : DB) (createdAt : Z) : Conversation :=
  mkConversation (conversations_seq db) None false createdAt.

Definition created_members (db : DB) (userId participantId : string)
    (joinedAt : Z) : list ConversationMember :=
  [ mkConversationMember (conversationMembers_seq db)
      (conversations_seq db) userId joinedAt;
    mkConversationMember (conversationMembers_seq db + 1)
      (conversations_seq db) participantId joinedAt ].

(** The edges from [userId] to [contactId] in the [contacts] table. *)
Definition contact_edges (db : DB) (userId contactId : string) : list Contact :=
  filter (fun c => contact_userId c = userId /\ contact_contactId c = contactId)
    (contacts db).

(** Sample data for the examples. *)
Definition alice : User :=
  mkUser "u1" (Some "Alice@example.com") (Some "Alice") (Some "Liddell").
Definition bob : User :=
  mkUser "u2" (Some "bob@example.com") (Some "Bob") None.
Definition sample_db : DB := initial_db [alice; bob].








(** The claim that a broadcast leaves out the sender's own connection
    [own]: it sends nothing to that socket. *)
Definition excludes_sender (own : WebSocket) (conversationId : Z)
    (message : Message) (h : Hub) : Prop :=
  delivered own (sent (broadcastMessage conversationId message h)) =
    delivered own (sent h).

(** The sockets in the set of a conversation; no set, no socket. *)
Definition subscribers (h : Hub) (conversationId : Z) : list WebSocket :=
  default [] (clients h !! conversationId).

Definition sample_message : Message := mkMessage 1 7 "u1" "hi" 200.

(** A [Set] holds each of its sockets once. *)
Definition hub_wf (h : Hub) : Prop :=
  forall conversationId s, clients h !! conversationId = Some s -> NoDup s.

(** The messages of a conversation, in the order of the table. *)
Definition conversation_messages (db : DB) (conversationId : Z) : list Message :=
  filter (fun m => msg_conversationId m = conversationId) (messages db).

(** A call of [createMessage] on a conversation: who sends, what, and the
    database clock at the insert. *)
Record MessageCall := mkCall {
  call_senderId : string;
  call_content : string;
  call_now : Z;
}.

(** A sequence of calls of [createMessage] on one conversation, one after
    the other; the messages they return. *)
Fixpoint createMessages (conversationId : Z) (calls : list MessageCall)
    : Store (list Message) :=
  match calls with
  | [] => mret []
  | call :: calls' =>
      message ← createMessage (call_senderId call) conversationId
                  (call_content call) (call_now call);
      rest ← createMessages conversationId calls';
      mret (message :: rest)
  end.

(** The sample database after user u1 has opened a conversation with
    user u2. *)
Definition chat_db : DB := (createConversation "u1" "u2" 100 101 sample_db).2.

(** The effective timestamp of a summary, in the words of the
    specification: the creation time of the last message if there is one,
    the creation time of the conversation otherwise. *)
Definition effective_timestamp (a : ConversationSummary) : Z :=
  match lastMessage a with
  | Some m => msg_createdAt m
  | None => conv_createdAt (summary_conversation a)
  end.

(** The user has a membership row in the conversation. *)
Definition member_of (db : DB) (userId : string) (c : Conversation) : Prop :=
  Exists (fun m => member_userId m = userId /\
                   member_conversationId m = conv_id c)
    (conversationMembers db).

#[global] Instance member_of_dec db userId c : Decision (member_of db userId c).
Proof. unfold member_of. apply _. Defined.

(** [o] is the newest message of the conversation: none when the
    conversation has no message, otherwise one of its messages that no other
    of them is newer than. *)
Definition newest_message (db : DB) (conversationId : Z) (o : option Message)
    : Prop :=
  match o with
  | None => conversation_messages db conversationId = []
  | Some m =>
      m ∈ conversation_messages db conversationId /\
      Forall (fun m' => msg_createdAt m' <= msg_createdAt m)
        (conversation_messages db conversationId)
  end.

(** The chat database after a first message in the conversation and after
    user u1 has opened a second conversation, with himself. *)
Definition inbox_db : DB :=
  ((createMessage "u2" 1 "hello" 150;;
    createConversation "u1" "u1" 120 121) chat_db).2.

(* ===================================================================== *)
(** * Building a URL ([shared/routes.ts], [buildUrl]) *)
(* ===================================================================== *)

(** What is left of [s] after the prefix [p], if [s] starts with [p]. *)
Fixpoint strip_prefix (p s : string) : option string :=
  match p with
  | EmptyString => Some s
  | String c p' =>
      match s with
      | EmptyString => None
      | String d s' => if Ascii.eqb c d then strip_prefix p' s' else None
      end
  end.

(** The first occurrence of [p] in [s]: what comes before it and what
    comes after it. *)
Fixpoint split_first (p s : string) : option (string * string) :=
  match strip_prefix p s with
  | Some after => Some (EmptyString, after)
  | None =>
      match s with
      | EmptyString => None
      | String c s' =>
          match split_first p s' with
          | Some (before, after) => Some (String c before, after)
          | None => None
          end
      end
  end.

(** [s.includes(p)] *)
Definition includes (s p : string) : bool :=
  match split_first p s with
  | Some _ => true
  | None => false
  end.

(** The text a replacement string stands for when the pattern of
    [replace] is a string: [$$] is a dollar, [$&] the match, [$`] what
    precedes the match and [$'] what follows it; there are no groups, so
    any other dollar stands for itself. *)
Fixpoint get_substitution (matched before after template : string) : string :=
  match template with
  | EmptyString => EmptyString
  | String c t =>
      if Ascii.eqb c "$" then
        match t with
        | EmptyString => String c EmptyString
        | String d t' =>
            if Ascii.eqb d "$" then
              String d (get_substitution matched before after t')
            else if Ascii.eqb d "&" then
              matched +:+ get_substitution matched before after t'
            else if Ascii.eqb d "`" then
              before +:+ get_substitution matched before after t'
            else if Ascii.eqb d "'" then
              after +:+ get_substitution matched before after t'
            else String c (get_substitution matched before after t)
        end
      else String c (get_substitution matched before after t)
  end.

(** [s.replace(searchString, replaceValue)] with two strings: the first
    occurrence is replaced. *)
Definition replace (s searchString replaceValue : string) : string :=
  match split_first searchString s with
  | Some (before, after) =>
      before +:+ get_substitution searchString before after replaceValue
        +:+ after
  | None => s
  end.

(** [buildUrl(path, params)].  [params] is absent or holds the entries of
    the object in the order of [Object.entries], each value as
    [String(value)] renders it. *)
Definition buildUrl (path : string) (params : option (list (string * string)))
    : string :=
  match params with
  | None => path
  | Some entries =>
      foldl (fun url entry =>
               if includes url (":" +:+ entry.1)
               then replace url (":" +:+ entry.1) entry.2
               else url)
        path entries
  end.

(** The character occurs in the string. *)
Fixpoint occurs (c : ascii) (s : string) : bool :=
  match s with
  | EmptyString => false
  | String d s' => Ascii.eqb c d || occurs c s'
  end.

(* ===================================================================== *)
(** * Further notions used in the statements *)
(* ===================================================================== *)

(** The pair of users a contact row links. *)
Definition contact_pair (c : Contact) : string * string :=
  (contact_userId c, contact_contactId c).

(** No contact row links a user to himself, and no pair is linked twice. *)
Definition contacts_ok (db : DB) : Prop :=
  Forall (fun c => contact_userId c <> contact_contactId c) (contacts db) /\
  NoDup (contact_pair <$> contacts db).

(** The membership rows of a conversation, in the order of the table. *)
Definition conversation_rows (db : DB) (conversationId : Z)
    : list ConversationMember :=
  filter (fun m => member_conversationId m = conversationId)
    (conversationMembers db).

(** The join frame of a conversation. *)
Definition join (conversationId : Z) : WsData := Parsed "join" conversationId.

(** The socket is connected and its close event has not come yet. *)
Definition alive (h : Hub) (ws : WebSocket) : Prop :=
  exists s, readyState h !! ws = Some s /\ s <> CLOSED.

(** The event comes from another source than the socket's own frames and
    its close. *)
Definition foreign_to (ws : WebSocket) (e : Event) : Prop :=
  match e with
  | Frame ws' _ | Close ws' => ws' <> ws
  | _ => True
  end.

(** A hub in which sockets 1 and 2 have connected. *)
Definition sample_hub : Hub :=
  hub_run hub_init [Connection 1%nat; Connection 2%nat].

(** A server on the chat database with the sample hub, socket 2 joined to
    conversation 1. *)
Definition sample_server : Server :=
  mkServer chat_db (hub_step sample_hub (Frame 2%nat (join 1))).

(** The rows [getMessages] has once they are ordered, before [LIMIT] and
    [OFFSET] cut them. *)
Definition message_rows (db : DB) (conversationId : Z) : list (Message * User) :=
  orderBy (asc (fun r : Message * User => msg_createdAt r.1))
    (filter (fun r => msg_conversationId r.1 = conversationId)
       (innerJoin (messages db) (users db) msg_senderId user_id)).

(** [{...m.message, sender: m.sender}] *)
Definition with_sender (r : Message * User) : MessageWithSender :=
  mkWithSender r.1 r.2.

#[global] Instance Envelope_eq_dec : EqDecision Envelope.
Proof. solve_decision. Defined.
(* ===================================================================== *)
(** * Facts about the query building blocks *)
(* ===================================================================== *)

Section SortingFacts.
Context {A : Type} (before : A -> A -> bool).

Lemma insert_sorted_Permutation x l : insert_sorted before x l ≡ₚ x :: l.
Proof.
  induction l as [|y l IH]; simpl; [done|].
  destruct (before x y); [done|].
  rewrite IH. apply Permutation_swap.
Qed.

Lemma orderBy_Permutation l : orderBy before l ≡ₚ l.
Proof.
  induction l as [|x l IH]; simpl; [done|].
  by rewrite insert_sorted_Permutation, IH.
Qed.

(** Rows that already come in order are left as they are. *)
Lemma insert_sorted_head x l :
  HdRel (fun a b => before a b = true) x l -> insert_sorted before x l = x :: l.
Proof. destruct 1 as [|y l Hxy]; simpl; [done|]. by rewrite Hxy. Qed.

Lemma orderBy_sorted l :
  Sorted (fun a b => before a b = true) l -> orderBy before l = l.
Proof.
  induction 1 as [|x l Hl IH Hx]; simpl; [done|].
  rewrite IH. by apply insert_sorted_head.
Qed.

(** When the test is total, the rows come out in order. *)
Hypothesis before_total : forall a b, before a b = true \/ before b a = true.

Lemma insert_sorted_Sorted x l :
  Sorted (fun a b => before a b = true) l ->
  Sorted (fun a b => before a b = true) (insert_sorted before x l).
Proof.
  induction 1 as [|y l Hl IH Hy]; simpl.
  - by repeat constructor.
  - destruct (before x y) eqn:Hxy.
    + by repeat constructor.
    + constructor; [done|].
      destruct (before_total x y) as [?|Hyx]; [congruence|].
      destruct Hy as [|z l Hyz]; simpl.
      * by constructor.
      * destruct (before x z); by constructor.
Qed.

Lemma orderBy_Sorted l : Sorted (fun a b => before a b = true) (orderBy before l).
Proof.
  induction l as [|x l IH]; simpl; [constructor|].
  by apply insert_sorted_Sorted.
Qed.
End SortingFacts.

Lemma Sorted_weaken {A} (R1 R2 : relation A) l :
  (forall a b, R1 a b -> R2 a b) -> Sorted R1 l -> Sorted R2 l.
Proof.
  intros HR. induction 1 as [|x l Hl IH Hx]; constructor; [done|].
  destruct Hx; constructor; auto.
Qed.

Lemma orderBy_asc_Sorted {A} (col : A -> Z) l :
  Sorted (fun a b => col a <= col b) (orderBy (asc col) l).
Proof.
  eapply Sorted_weaken; [|apply (orderBy_Sorted (asc col))].
  - intros a b Hab. unfold asc in Hab. lia.
  - intros a b. unfold asc. lia.
Qed.

Lemma orderBy_desc_Sorted {A} (col : A -> Z) l :
  Sorted (fun a b => col b <= col a) (orderBy (desc col) l).
Proof.
  eapply Sorted_weaken; [|apply (orderBy_Sorted (desc col))].
  - intros a b Hab. unfold desc in Hab. lia.
  - intros a b. unfold desc. lia.
Qed.

Lemma filter_none {A} (P : A -> Prop) `{!forall x, Decision (P x)} (l : list A) :
  Forall (fun x => ~ P x) l -> filter P l = [].
Proof.
  induction 1 as [|x l Hx Hl IH]; [done|].
  by rewrite filter_cons_False.
Qed.

Lemma filter_all {A} (P : A -> Prop) `{!forall x, Decision (P x)} (l : list A) :
  Forall P l -> filter P l = l.
Proof.
  induction 1 as [|x l Hx Hl IH]; [done|].
  rewrite filter_cons_True by done. by f_equal.
Qed.

Section JoinFacts.
Context {A B K : Type} `{EqDecision K}.
Implicit Types (a : list A) (b : list B) (ca : A -> K) (cb : B -> K).

Lemma innerJoin_nil b ca cb : innerJoin [] b ca cb = [].
Proof. done. Qed.

Lemma innerJoin_cons x a b ca cb :
  innerJoin (x :: a) b ca cb =
    ((fun y => (x, y)) <$> filter (fun y => ca x = cb y) b)
      ++ innerJoin a b ca cb.
Proof. done. Qed.

Lemma innerJoin_app a1 a2 b ca cb :
  innerJoin (a1 ++ a2) b ca cb = innerJoin a1 b ca cb ++ innerJoin a2 b ca cb.
Proof. unfold innerJoin. by rewrite bind_app. Qed.

Lemma elem_of_innerJoin a b ca cb x y :
  (x, y) ∈ innerJoin a b ca cb <-> x ∈ a /\ y ∈ b /\ ca x = cb y.
Proof.
  unfold innerJoin. rewrite list_elem_of_bind. split.
  - intros (x' & Hin & Hx'). apply list_elem_of_fmap in Hin as (y' & Heq & Hy').
    simplify_eq. apply list_elem_of_filter in Hy' as [? ?]. done.
  - intros (Hx & Hy & Hk). exists x. split; [|done].
    apply list_elem_of_fmap. exists y. split; [done|].
    by apply list_elem_of_filter.
Qed.

(** A key that is unique in [b] and present there selects one row. *)
Lemma filter_unique_key b cb k :
  NoDup (cb <$> b) -> k ∈ cb <$> b ->
  exists y, filter (fun y => k = cb y) b = [y] /\ cb y = k /\ y ∈ b.
Proof.
  induction b as [|z b IH]; simpl; intros Hnd Hin.
  - by apply elem_of_nil in Hin.
  - apply NoDup_cons in Hnd as [Hz Hnd].
    rewrite filter_cons. destruct (decide (k = cb z)) as [->|Hne].
    + exists z. split_and!; [|done|by left].
      rewrite filter_none; [done|]. apply Forall_forall.
      intros y Hy Heq. apply Hz. rewrite Heq.
      apply list_elem_of_fmap. eauto.
    + apply elem_of_cons in Hin as [?|Hin]; [done|].
      destruct (IH Hnd Hin) as (y & ? & ? & ?).
      exists y. split_and!; [done..|by right].
Qed.

(** Under a foreign key into a unique column, the join has one pair for
    each row of [a]. *)
Lemma innerJoin_foreign_key a b ca cb :
  NoDup (cb <$> b) -> Forall (fun x => ca x ∈ cb <$> b) a ->
  fst <$> innerJoin a b ca cb = a /\
  Forall (fun r => r.2 ∈ b /\ cb r.2 = ca r.1) (innerJoin a b ca cb).
Proof.
  intros Hnd. induction 1 as [|x a Hx Ha [IH1 IH2]]; [done|].
  rewrite innerJoin_cons.
  destruct (filter_unique_key b cb (ca x) Hnd Hx) as (y & -> & Hy & Hin).
  simpl. split; [by f_equal|]. by constructor.
Qed.
End JoinFacts.

(* ===================================================================== *)
(** * The statements keep the integrity constraints *)
(* ===================================================================== *)

Lemma wf_initial_db us : NoDup (user_id <$> us) -> wf_db (initial_db us).
Proof. intros Hnd. by constructor; simpl; try constructor. Qed.

Lemma conversation_fresh db :
  wf_db db -> ~ conversation_exists db (conversations_seq db).
Proof.
  intros Hwf (c & Heq & Hc)%list_elem_of_fmap.
  pose proof (conversations_serial db Hwf) as Hser.
  rewrite Forall_forall in Hser. specialize (Hser c Hc). lia.
Qed.

Lemma insert_conversation_wf isGroup now db :
  wf_db db -> wf_db (insert_conversation isGroup now db).2.
Proof.
  intros Hwf. pose proof (conversation_fresh db Hwf) as Hfresh.
  destruct Hwf as [Hu Hc Hs Hm Hg Hk].
  constructor; simpl; try done.
  - rewrite fmap_app. simpl. apply NoDup_app. split_and!; [done| |apply NoDup_singleton].
    intros x Hx ->%list_elem_of_singleton. by apply Hfresh.
  - apply Forall_app. split.
    + eapply Forall_impl; [done|]. simpl. intros; lia.
    + constructor; [simpl; lia|done].
  - eapply Forall_impl; [done|]. unfold conversation_exists. simpl.
    intros m [? ?]. split; [|done]. rewrite fmap_app. by apply elem_of_app; left.
  - eapply Forall_impl; [done|]. unfold conversation_exists. simpl.
    intros m [? ?]. split; [|done]. rewrite fmap_app. by apply elem_of_app; left.
Qed.

Lemma insert_conversationMembers_wf rows now db :
  wf_db db -> wf_db (insert_conversationMembers rows now db).2.
Proof.
  intros [Hu Hc Hs Hm Hg Hk]. unfold insert_conversationMembers.
  case_decide as Hfk; constructor;
    unfold conversation_exists, user_exists in *; simpl; try done.
  apply Forall_app. split; [done|].
  generalize (conversationMembers_seq db).
  induction Hfk as [|r rows Hr Hrows IH]; intros n; simpl; constructor; auto.
Qed.

Lemma insert_message_wf senderId conversationId content now db :
  wf_db db -> wf_db (insert_message senderId conversationId content now db).2.
Proof.
  intros [Hu Hc Hs Hm Hg Hk]. unfold insert_message.
  destruct (has_nul content); [by constructor|].
  case_decide as Hfk; constructor; simpl; try done.
  apply Forall_app. split; [done|]. by constructor.
Qed.

Lemma insert_contact_wf userId contactId now db :
  wf_db db -> wf_db (insert_contact userId contactId now db).2.
Proof.
  intros [Hu Hc Hs Hm Hg Hk]. unfold insert_contact.
  case_decide as Hfk; constructor; simpl; try done.
  apply Forall_app. split; [done|]. by constructor.
Qed.

(** The methods of the store keep the constraints. *)
Lemma createConversation_wf userId participantId createdAt joinedAt db :
  wf_db db ->
  wf_db (createConversation userId participantId createdAt joinedAt db).2.
Proof.
  intros Hwf. unfold createConversation, mbind, Store_bind, bind.
  pose proof (insert_conversation_wf false createdAt db Hwf) as Hwf1.
  destruct (insert_conversation false createdAt db) as [[newConv|e] db1];
    simpl in *; [|done].
  pose proof (insert_conversationMembers_wf
    [(conv_id newConv, userId); (conv_id newConv, participantId)]
    joinedAt db1 Hwf1) as Hwf2.
  by destruct (insert_conversationMembers _ joinedAt db1) as [[[]|e] db2].
Qed.

Lemma createMessage_wf senderId conversationId content now db :
  wf_db db -> wf_db (createMessage senderId conversationId content now db).2.
Proof. apply insert_message_wf. Qed.

Lemma addContact_wf userId contactUsername now db :
  wf_db db -> wf_db (addContact userId contactUsername now db).2.
Proof.
  intros Hwf. unfold addContact, mbind, Store_bind, bind, query. simpl.
  destruct (first_row _) as [contactUser|]; simpl; [|done].
  case_decide; simpl; [done|].
  destruct (first_row _) as [existing|]; simpl; [done|].
  pose proof (insert_contact_wf userId (user_id contactUser) now db Hwf).
  by destruct (insert_contact _ _ now db) as [[[]|e] db1].
Qed.

(* ===================================================================== *)
(** * Creating and reading a conversation *)
(* ===================================================================== *)

Lemma createConversation_ok db userId participantId createdAt joinedAt :
  user_exists db userId -> user_exists db participantId ->
  exists db',
    createConversation userId participantId createdAt joinedAt db =
      (Ok (created_conversation db createdAt), db') /\
    users db' = users db /\
    conversations db' = conversations db ++ [created_conversation db createdAt] /\
    conversationMembers db' =
      conversationMembers db ++ created_members db userId participantId joinedAt.
Proof.
  intros Hu Hp.
  unfold createConversation, mbind, Store_bind, bind, insert_conversation.
  unfold insert_conversationMembers. simpl.
  rewrite decide_True; [by eexists|].
  unfold conversation_exists, user_exists. simpl.
  assert (conversations_seq db ∈
            conv_id <$> conversations db ++ [created_conversation db createdAt]).
  { rewrite fmap_app. apply elem_of_app. right. by left. }
  by repeat constructor.
Qed.

(** When a statement of [createConversation] fails, it is the second one,
    and the first one stays committed. *)
Lemma createConversation_throws db userId participantId createdAt joinedAt :
  ~ (user_exists db userId /\ user_exists db participantId) ->
  exists db',
    createConversation userId participantId createdAt joinedAt db =
      (Throw (fk_violation "conversation_members"), db') /\
    conversations db' = conversations db ++ [created_conversation db createdAt] /\
    conversationMembers db' = conversationMembers db.
Proof.
  intros Hno.
  unfold createConversation, mbind, Store_bind, bind, insert_conversation.
  unfold insert_conversationMembers. simpl.
  rewrite decide_False; [by eexists|].
  unfold user_exists. simpl. intros Hall.
  apply Hno. inversion Hall as [|? ? [_ ?] Hall']; subst.
  by inversion Hall' as [|? ? [_ ?] _]; subst.
Qed.

Lemma getConversation_created db db' userId participantId createdAt joinedAt :
  wf_db db ->
  user_exists db userId -> user_exists db participantId ->
  users db' = users db ->
  conversations db' = conversations db ++ [created_conversation db createdAt] ->
  conversationMembers db' =
    conversationMembers db ++ created_members db userId participantId joinedAt ->
  exists u p,
    getConversation (conversations_seq db) db' =
      (Ok (Some (mkWithMembers (created_conversation db createdAt) [u; p])), db') /\
    u ∈ users db /\ user_id u = userId /\
    p ∈ users db /\ user_id p = participantId.
Proof.
  intros Hwf Hu Hp Husers Hconvs Hmembers.
  destruct (filter_unique_key (users db) user_id userId
              (users_pk db Hwf) Hu) as (u & Hfu & Hidu & Hinu).
  destruct (filter_unique_key (users db) user_id participantId
              (users_pk db Hwf) Hp) as (p & Hfp & Hidp & Hinp).
  exists u, p. split; [|done].
  unfold getConversation, mbind, Store_bind, bind, query. simpl.
  rewrite Hconvs, filter_app.
  rewrite (filter_none _ (conversations db)).
  2:{ eapply Forall_impl; [apply (conversations_serial db Hwf)|].
      simpl. intros; lia. }
  simpl. rewrite filter_cons_True by done. simpl.
  unfold mret, Store_ret, ret. rewrite Hmembers, Husers.
  rewrite innerJoin_app, filter_app, (filter_none _ (innerJoin _ _ _ _)).
  2:{ apply Forall_forall. intros [m v] [Hm _]%elem_of_innerJoin. simpl.
      pose proof (conversationMembers_fk db Hwf) as Hfk.
      rewrite Forall_forall in Hfk. destruct (Hfk m Hm) as [Hex _].
      intros Heq. apply (conversation_fresh db Hwf). by rewrite <- Heq. }
  unfold created_members. rewrite !innerJoin_cons, innerJoin_nil. simpl.
  rewrite Hfu, Hfp. simpl.
  by rewrite !filter_cons_True, filter_nil by done.
Qed.

Lemma post_conversations_created sub participantId createdAt joinedAt db conv db' :
  createConversation sub participantId createdAt joinedAt db = (Ok conv, db') ->
  post_conversations sub (Some participantId) createdAt joinedAt db =
    (Json 201 conv, db').
Proof.
  intros Hcreate.
  unfold post_conversations, parsed, z_string, mbind, Store_bind, bind.
  cbv beta iota. by rewrite Hcreate.
Qed.

Lemma post_conversations_failed sub participantId createdAt joinedAt db e db' :
  createConversation sub participantId createdAt joinedAt db = (Throw e, db') ->
  post_conversations sub (Some participantId) createdAt joinedAt db =
    (Failure 400 "Failed to create conversation", db').
Proof.
  intros Hcreate.
  unfold post_conversations, parsed, z_string, mbind, Store_bind, bind.
  cbv beta iota. by rewrite Hcreate.
Qed.

Lemma unique_key_inj {A K} (key : A -> K) (l : list A) x y :
  NoDup (key <$> l) -> x ∈ l -> y ∈ l -> key x = key y -> x = y.
Proof.
  induction l as [|z l IH]; simpl; intros Hnd Hx Hy Heq.
  - by apply elem_of_nil in Hx.
  - apply NoDup_cons in Hnd as [Hz Hnd].
    apply elem_of_cons in Hx as [->|Hx]; apply elem_of_cons in Hy as [->|Hy];
      [done| | |by apply IH].
    + exfalso. apply Hz. rewrite Heq. by apply list_elem_of_fmap_2.
    + exfalso. apply Hz. rewrite <- Heq. by apply list_elem_of_fmap_2.
Qed.

(** C2. For two existing users, [createConversation] followed by
    [getConversation] on the id it returns yields that conversation with a
    member list made of the user [userId] and the user [participantId],
    and no one else. *)
Theorem createConversation_getConversation
    db userId participantId createdAt joinedAt :
  wf_db db -> user_exists db userId -> user_exists db participantId ->
  exists conv db' u p,
    createConversation userId participantId createdAt joinedAt db =
      (Ok conv, db') /\
    getConversation (conv_id conv) db' =
      (Ok (Some (mkWithMembers conv [u; p])), db') /\
    u ∈ users db /\ user_id u = userId /\
    p ∈ users db /\ user_id p = participantId.
Proof.
  intros Hwf Hu Hp.
  destruct (createConversation_ok db userId participantId createdAt joinedAt
              Hu Hp) as (db' & Hcreate & Husers & Hconvs & Hmembers).
  destruct (getConversation_created db db' userId participantId createdAt
              joinedAt Hwf Hu Hp Husers Hconvs Hmembers) as (u & p & Hget & ?).
  by exists (created_conversation db createdAt), db', u, p.
Qed.

Lemma createConversation_getConversation_witness :
  exists conv db' u p,
    createConversation "u1" "u2" 100 101 sample_db = (Ok conv, db') /\
    getConversation (conv_id conv) db' =
      (Ok (Some (mkWithMembers conv [u; p])), db') /\
    u ∈ users sample_db /\ user_id u = "u1" /\
    p ∈ users sample_db /\ user_id p = "u2".
Proof.
  apply (createConversation_getConversation sample_db "u1" "u2" 100 101).
  - apply wf_initial_db. compute_done.
  - compute_done.
  - compute_done.
Defined.

(** C10. Nothing checks that the two users differ: for an existing user
    [u], POST /api/conversations with [participantId = u] answers 201,
    [createConversation(u, u)] writes two membership rows that both name
    [u], and [getConversation] then lists that one user twice in a
    conversation that is not a group. *)
Theorem createConversation_with_oneself db u createdAt joinedAt :
  wf_db db -> user_exists db u ->
  exists conv db' usr,
    createConversation u u createdAt joinedAt db = (Ok conv, db') /\
    post_conversations u (Some u) createdAt joinedAt db = (Json 201 conv, db') /\
    conv_isGroup conv = false /\
    member_userId <$>
      filter (fun m => member_conversationId m = conv_id conv)
        (conversationMembers db') = [u; u] /\
    getConversation (conv_id conv) db' =
      (Ok (Some (mkWithMembers conv [usr; usr])), db') /\
    user_id usr = u.
Proof.
  intros Hwf Hu.
  destruct (createConversation_ok db u u createdAt joinedAt Hu Hu)
    as (db' & Hcreate & Husers & Hconvs & Hmembers).
  destruct (getConversation_created db db' u u createdAt joinedAt
              Hwf Hu Hu Husers Hconvs Hmembers)
    as (usr & p & Hget & Hin & Hid & Hinp & Hidp).
  assert (p = usr) as ->.
  { apply (unique_key_inj user_id (users db)); [apply Hwf|done..|congruence]. }
  exists (created_conversation db createdAt), db', usr.
  split_and!; try done.
  - by apply post_conversations_created.
  - rewrite Hmembers, filter_app, filter_none.
    + unfold created_members. simpl.
      by rewrite !filter_cons_True, filter_nil by done.
    + pose proof (conversationMembers_fk db Hwf) as Hfk.
      eapply Forall_impl; [exact Hfk|]. simpl. intros m [Hex _] Heq.
      apply (conversation_fresh db Hwf). by rewrite <- Heq.
Qed.

Lemma createConversation_with_oneself_witness :
  exists conv db' usr,
    createConversation "u1" "u1" 100 101 sample_db = (Ok conv, db') /\
    post_conversations "u1" (Some "u1") 100 101 sample_db = (Json 201 conv, db') /\
    conv_isGroup conv = false /\
    member_userId <$>
      filter (fun m => member_conversationId m = conv_id conv)
        (conversationMembers db') = ["u1"; "u1"] /\
    getConversation (conv_id conv) db' =
      (Ok (Some (mkWithMembers conv [usr; usr])), db') /\
    user_id usr = "u1".
Proof.
  apply (createConversation_with_oneself sample_db "u1" 100 101).
  - apply wf_initial_db. compute_done.
  - compute_done.
Defined.

(** C1. [createConversation] is not one unit of work.  When the
    participant is not a user, the insert of the two membership rows breaks
    the foreign key on [user_id] and throws, POST /api/conversations
    answers 400, and the conversation row written just before stays: the
    database is left with a conversation that has no member, which
    [getConversation] returns with an empty member list. *)
Theorem createConversation_partial_commit
    db userId participantId createdAt joinedAt :
  wf_db db -> ~ user_exists db participantId ->
  exists e db',
    createConversation userId participantId createdAt joinedAt db =
      (Throw e, db') /\
    post_conversations userId (Some participantId) createdAt joinedAt db =
      (Failure 400 "Failed to create conversation", db') /\
    conversations db' =
      conversations db ++ [created_conversation db createdAt] /\
    conversationMembers db' = conversationMembers db /\
    getConversation (conversations_seq db) db' =
      (Ok (Some (mkWithMembers (created_conversation db createdAt) [])), db').
Proof.
  intros Hwf Hp.
  destruct (createConversation_throws db userId participantId createdAt joinedAt)
    as (db' & Hcreate & Hconvs & Hmembers); [by intros [_ ?]|].
  exists (fk_violation "conversation_members"), db'. split_and!; try done.
  { by eapply post_conversations_failed. }
  unfold getConversation, mbind, Store_bind, bind, query. simpl.
  rewrite Hconvs, filter_app, (filter_none _ (conversations db)).
  2:{ eapply Forall_impl; [apply (conversations_serial db Hwf)|].
      simpl. intros; lia. }
  simpl. rewrite filter_cons_True by done. simpl.
  unfold mret, Store_ret, ret. rewrite Hmembers, filter_none; [done|].
  apply Forall_forall. intros [m v] [Hm _]%elem_of_innerJoin. simpl.
  pose proof (conversationMembers_fk db Hwf) as Hfk.
  rewrite Forall_forall in Hfk. destruct (Hfk m Hm) as [Hex _].
  intros Heq. apply (conversation_fresh db Hwf). by rewrite <- Heq.
Qed.

Lemma createConversation_partial_commit_witness :
  exists e db',
    createConversation "u1" "ghost" 100 101 sample_db = (Throw e, db') /\
    post_conversations "u1" (Some "ghost") 100 101 sample_db =
      (Failure 400 "Failed to create conversation", db') /\
    conversations db' =
      conversations sample_db ++ [created_conversation sample_db 100] /\
    conversationMembers db' = conversationMembers sample_db /\
    getConversation (conversations_seq sample_db) db' =
      (Ok (Some (mkWithMembers (created_conversation sample_db 100) [])), db').
Proof.
  apply (createConversation_partial_commit sample_db "u1" "ghost" 100 101).
  - apply wf_initial_db. compute_done.
  - compute_done.
Defined.

(* ===================================================================== *)
(** * Contacts *)
(* ===================================================================== *)

Lemma post_contacts_thrown sub username now db e db' :
  addContact sub username now db = (Throw e, db') ->
  post_contacts sub (Some username) now db = (Failure 400 (exn_message e), db').
Proof.
  intros Hadd.
  unfold post_contacts, parsed, z_string, mbind, Store_bind, bind.
  cbv beta iota. rewrite Hadd. by destruct e.
Qed.

Lemma addContact_not_found db sub username now :
  Forall (fun u => user_email u <> Some username) (users db) ->
  addContact sub username now db = (Throw (JsError "User not found"), db).
Proof.
  intros Hnone. unfold addContact, mbind, Store_bind, bind, query. simpl.
  by rewrite filter_none.
Qed.

(** The second half of C7 holds: adding oneself throws its own error, which
    the handler answers with 400. *)
Lemma addContact_self db sub username now contactUser :
  first_row (filter (fun u => user_email u = Some username) (users db))
    = Some contactUser ->
  user_id contactUser = sub ->
  addContact sub username now db =
    (Throw (JsError "Cannot add yourself as a contact"), db) /\
  post_contacts sub (Some username) now db =
    (Failure 400 "Cannot add yourself as a contact", db).
Proof.
  intros Hfound Hself.
  assert (addContact sub username now db =
            (Throw (JsError "Cannot add yourself as a contact"), db)) as Hadd.
  { unfold addContact, mbind, Store_bind, bind, query. simpl.
    rewrite Hfound. simpl. by rewrite decide_True. }
  split; [done|]. by rewrite (post_contacts_thrown _ _ _ _ _ _ Hadd).
Qed.

(** C7. When no user has the given e-mail address, [addContact] throws
    [Error("User not found")], an error of its own, and POST /api/contacts
    answers it with status 400, the status of every [Error] there, not with
    404. *)
Theorem post_contacts_not_found db sub username now :
  Forall (fun u => user_email u <> Some username) (users db) ->
  addContact sub username now db = (Throw (JsError "User not found"), db) /\
  post_contacts sub (Some username) now db =
    (Failure 400 "User not found", db).
Proof.
  intros Hnone.
  pose proof (addContact_not_found db sub username now Hnone) as Hadd.
  split; [done|]. by rewrite (post_contacts_thrown _ _ _ _ _ _ Hadd).
Qed.

Lemma post_contacts_not_found_witness :
  addContact "u1" "nobody@example.com" 5 sample_db =
    (Throw (JsError "User not found"), sample_db) /\
  post_contacts "u1" (Some "nobody@example.com") 5 sample_db =
    (Failure 400 "User not found", sample_db).
Proof.
  apply (post_contacts_not_found sample_db "u1" "nobody@example.com" 5).
  compute_done.
Defined.

(** C8. [addContact] is idempotent: after a call that returned the contact
    [c], a second call with the same arguments returns [c] again, inserts
    no row and throws nothing, so the database, and with it the answer of
    [getContacts], is the one left by the first call.  The first call
    itself leaves one edge from the caller to [c] when there was none, and
    adds none when there was one already. *)
Theorem addContact_idempotent db userId contactUsername now1 now2 c db1 :
  addContact userId contactUsername now1 db = (Ok c, db1) ->
  addContact userId contactUsername now2 db1 = (Ok c, db1) /\
  getContacts userId (addContact userId contactUsername now2 db1).2 =
    getContacts userId db1 /\
  length (contact_edges db1 userId (user_id c)) =
    Nat.max 1 (length (contact_edges db userId (user_id c))).
Proof.
  intros Hadd.
  assert (addContact userId contactUsername now2 db1 = (Ok c, db1) /\
          length (contact_edges db1 userId (user_id c)) =
            Nat.max 1 (length (contact_edges db userId (user_id c))))
    as [Hagain Hone].
  { revert Hadd. unfold addContact, mbind, Store_bind, bind, query. simpl.
    destruct (first_row (filter _ (users db))) as [contactUser|] eqn:Hfound;
      simpl; [|done].
    case_decide as Hself; simpl; [done|].
    destruct (first_row (filter _ (contacts db))) as [existing|] eqn:Hexisting;
      simpl.
    - intros [= <- <-]. rewrite Hfound. simpl.
      rewrite decide_False by done. simpl. rewrite Hexisting. simpl.
      split; [done|]. unfold contact_edges.
      destruct (filter _ (contacts db)) as [|e l]; simpl in *; [done|lia].
    - unfold insert_contact. case_decide as Hfk; simpl; [|done].
      intros [= <- <-]. simpl. rewrite Hfound. simpl.
      rewrite decide_False by done. simpl.
      unfold contact_edges. simpl. rewrite !filter_app.
      destruct (filter _ (contacts db)) as [|e l]; [|done]. simpl.
      rewrite filter_cons_True by done. by simpl. }
  split_and!; [done| |done]. by rewrite Hagain.
Qed.

Lemma addContact_idempotent_witness :
  addContact "u1" "bob@example.com" 6
    (addContact "u1" "bob@example.com" 5 sample_db).2 =
    (Ok bob, (addContact "u1" "bob@example.com" 5 sample_db).2) /\
  getContacts "u1"
    (addContact "u1" "bob@example.com" 6
       (addContact "u1" "bob@example.com" 5 sample_db).2).2 =
    getContacts "u1" (addContact "u1" "bob@example.com" 5 sample_db).2 /\
  length (contact_edges (addContact "u1" "bob@example.com" 5 sample_db).2
            "u1" (user_id bob)) =
    Nat.max 1 (length (contact_edges sample_db "u1" (user_id bob))).
Proof.
  apply (addContact_idempotent sample_db "u1" "bob@example.com" 5 6 bob).
  reflexivity.
Defined.

(* ===================================================================== *)
(** * Searching users *)
(* ===================================================================== *)














(* ===================================================================== *)
(** * The push hub *)
(* ===================================================================== *)

Lemma hub_run_app h events1 events2 :
  hub_run h (events1 ++ events2) = hub_run (hub_run h events1) events2.
Proof. apply foldl_app. Qed.

Lemma delivered_app ws log1 log2 :
  delivered ws (log1 ++ log2) = delivered ws log1 ++ delivered ws log2.
Proof. unfold delivered. by rewrite filter_app, fmap_app. Qed.

(** Only a broadcast sends, and the log only grows. *)
Lemma on_message_sent ws data h : sent (on_message ws data h) = sent h.
Proof.
  unfold on_message. destruct data as [|type conversationId]; [done|].
  by case_decide.
Qed.

Lemma on_close_sent ws h : sent (on_close ws h) = sent h.
Proof.
  unfold on_close. destruct (ws_conversationId h !! ws) as [c|]; [|done].
  case_decide; [|done]. by destruct (clients h !! c).
Qed.

Lemma on_message_readyState ws data h :
  readyState (on_message ws data h) = readyState h.
Proof.
  unfold on_message. destruct data as [|type conversationId]; [done|].
  by case_decide.
Qed.

Lemma on_close_readyState ws h : readyState (on_close ws h) = readyState h.
Proof.
  unfold on_close. destruct (ws_conversationId h !! ws) as [c|]; [|done].
  case_decide; [|done]. by destruct (clients h !! c).
Qed.

Lemma broadcastMessage_readyState conversationId message h :
  readyState (broadcastMessage conversationId message h) = readyState h.
Proof. unfold broadcastMessage. by destruct (clients h !! conversationId). Qed.

Lemma broadcastMessage_clients conversationId message h :
  clients (broadcastMessage conversationId message h) = clients h.
Proof. unfold broadcastMessage. by destruct (clients h !! conversationId). Qed.

(** What a broadcast appends to the log. *)
Lemma broadcastMessage_sent conversationId message h :
  sent (broadcastMessage conversationId message h) =
    sent h ++
    ((fun client => (client, mkEnvelope "message:new" message)) <$>
       filter (fun client => readyState h !! client = Some OPEN)
         (subscribers h conversationId)).
Proof.
  unfold broadcastMessage, subscribers.
  destruct (clients h !! conversationId); simpl; [done|].
  by rewrite app_nil_r.
Qed.

(** A socket that is not open gets nothing from a broadcast. *)
Lemma broadcastMessage_not_open ws conversationId message h :
  readyState h !! ws <> Some OPEN ->
  delivered ws (sent (broadcastMessage conversationId message h)) =
    delivered ws (sent h).
Proof.
  intros Hclosed. rewrite broadcastMessage_sent, delivered_app.
  unfold delivered at 2. rewrite filter_none; [by rewrite app_nil_r|].
  apply Forall_forall. intros [client env].
  intros (c & [= -> ->] & [Hopen _]%list_elem_of_filter)%list_elem_of_fmap.
  simpl. by intros ->.
Qed.

(** A socket that has connected stays known to the hub. *)
Lemma hub_step_known ws h e :
  is_Some (readyState h !! ws) -> is_Some (readyState (hub_step h e) !! ws).
Proof.
  intros Hknown. destruct e as [ws'|ws' data|ws'|ws'|c m]; simpl.
  - case_decide; [done|]. simpl.
    destruct (decide (ws' = ws)) as [->|]; [done|]. by rewrite lookup_insert_ne.
  - case_decide; [|done]. by rewrite on_message_readyState.
  - case_decide; [|done]. simpl.
    destruct (decide (ws' = ws)) as [->|];
      [by rewrite lookup_insert_eq|by rewrite lookup_insert_ne].
  - destruct (readyState h !! ws') as [[]|] eqn:Hws'; try done;
      rewrite on_close_readyState; simpl;
      (destruct (decide (ws' = ws)) as [->|];
         [by rewrite lookup_insert_eq|by rewrite lookup_insert_ne]).
  - by rewrite broadcastMessage_readyState.
Qed.

Lemma hub_run_known ws h events :
  is_Some (readyState h !! ws) -> is_Some (readyState (hub_run h events) !! ws).
Proof.
  revert h. induction events as [|e events IH]; intros h Hknown; [done|].
  simpl. by apply IH, hub_step_known.
Qed.

Lemma hub_step_Connection ws h :
  is_Some (readyState (hub_step h (Connection ws)) !! ws).
Proof.
  simpl. case_decide; [done|]. simpl. by rewrite lookup_insert_eq.
Qed.

Lemma hub_run_connected ws h events :
  Connection ws ∈ events -> is_Some (readyState (hub_run h events) !! ws).
Proof.
  intros (events1 & events2 & ->)%list_elem_of_split.
  rewrite hub_run_app. simpl. apply hub_run_known, hub_step_Connection.
Qed.

(** The close event leaves the socket closed ... *)
Lemma hub_step_Close ws h :
  is_Some (readyState h !! ws) ->
  readyState (hub_step h (Close ws)) !! ws = Some CLOSED.
Proof.
  intros [s Hs]. simpl. rewrite Hs.
  destruct s; try done; rewrite on_close_readyState; simpl;
    by rewrite lookup_insert_eq.
Qed.

(** ... and a closed socket stays closed and is sent nothing. *)
Lemma hub_step_closed ws h e :
  readyState h !! ws = Some CLOSED ->
  readyState (hub_step h e) !! ws = Some CLOSED /\
  delivered ws (sent (hub_step h e)) = delivered ws (sent h).
Proof.
  intros Hclosed. destruct e as [ws'|ws' data|ws'|ws'|c m]; simpl.
  - case_decide as Hknown; [done|]. simpl. split; [|done].
    rewrite lookup_insert_ne; [done|]. intros ->. apply Hknown. by rewrite Hclosed.
  - case_decide; [|done].
    by rewrite on_message_readyState, on_message_sent.
  - case_decide as Hopen; [|done]. simpl. split; [|done].
    rewrite lookup_insert_ne; [done|]. intros ->. congruence.
  - destruct (readyState h !! ws') as [[]|] eqn:Hws'; try done;
      rewrite on_close_readyState, on_close_sent; simpl; (split; [|done]);
      (destruct (decide (ws' = ws)) as [->|];
         [by rewrite lookup_insert_eq|by rewrite lookup_insert_ne]).
  - rewrite broadcastMessage_readyState. split; [done|].
    apply broadcastMessage_not_open. by rewrite Hclosed.
Qed.

Lemma hub_run_closed ws h events :
  readyState h !! ws = Some CLOSED ->
  delivered ws (sent (hub_run h events)) = delivered ws (sent h).
Proof.
  revert h. induction events as [|e events IH]; intros h Hclosed; [done|].
  simpl. destruct (hub_step_closed ws h e Hclosed) as [Hstill Hsame].
  by rewrite (IH _ Hstill).
Qed.

(** C6. A socket that connected, joined conversation [C] and then
    disconnected is sent nothing any more, whatever happens afterwards and
    whatever it did between the join and the disconnect: the envelopes it
    has been sent after any further run of events, broadcasts to [C]
    included, are the ones it had been sent when it closed. *)
Theorem closed_socket_gets_nothing ws C before between after :
  Connection ws ∈ before ->
  let closed :=
    hub_run hub_init
      (before ++ [Frame ws (Parsed "join" C)] ++ between ++ [Close ws]) in
  delivered ws (sent (hub_run closed after)) = delivered ws (sent closed).
Proof.
  intros Hconnected closed. apply hub_run_closed. unfold closed.
  rewrite !app_assoc, hub_run_app. simpl. apply hub_step_Close.
  rewrite <- app_assoc, hub_run_app. by apply hub_run_known, hub_run_connected.
Qed.

Lemma closed_socket_gets_nothing_witness :
  let closed :=
    hub_run hub_init
      ([Connection 1%nat] ++ [Frame 1%nat (Parsed "join" 7)] ++
       [Frame 1%nat (Parsed "join" 8)] ++ [Close 1%nat]) in
  delivered 1%nat (sent (hub_run closed [Broadcast 7 sample_message])) =
    delivered 1%nat (sent closed).
Proof.
  apply (closed_socket_gets_nothing 1%nat 7 [Connection 1%nat]
           [Frame 1%nat (Parsed "join" 8)] [Broadcast 7 sample_message]).
  compute_done.
Defined.

(** After the join, the close handler only looks at the conversation joined
    last: a socket that joined 7 and then 8 is still in the set of 7 once it
    has closed.  It is the test of [readyState] in [broadcastMessage] that
    keeps messages away from it. *)
Example closed_socket_stays_subscribed :
  subscribers
    (hub_run hub_init
       [Connection 1%nat; Frame 1%nat (Parsed "join" 7);
        Frame 1%nat (Parsed "join" 8); Close 1%nat]) 7 = [1%nat].
Proof. reflexivity. Qed.

Lemma set_add_NoDup ws s : NoDup s -> NoDup (set_add ws s).
Proof.
  intros Hs. unfold set_add. case_decide as Hin; [done|].
  apply NoDup_app. split_and!; [done| |apply NoDup_singleton].
  by intros x Hx ->%list_elem_of_singleton.
Qed.

Lemma set_delete_NoDup ws s : NoDup s -> NoDup (set_delete ws s).
Proof. apply NoDup_filter. Qed.

Lemma hub_step_wf h e : hub_wf h -> hub_wf (hub_step h e).
Proof.
  intros Hwf. destruct e as [ws|ws data|ws|ws|c m]; simpl.
  - by case_decide.
  - case_decide; [|done]. destruct data as [|type c]; simpl; [done|].
    case_decide; [|done]. intros c' s'. simpl.
    destruct (decide (is_Some (clients h !! c))) as [[s Hs]|Hnone].
    + rewrite Hs. destruct (decide (c = c')) as [->|].
      * rewrite lookup_insert_eq. intros [= <-]. by eapply set_add_NoDup, Hwf.
      * rewrite lookup_insert_ne by done. apply Hwf.
    + rewrite lookup_insert_eq. destruct (decide (c = c')) as [->|].
      * rewrite lookup_insert_eq. intros [= <-]. apply set_add_NoDup, NoDup_nil_2.
      * rewrite !lookup_insert_ne by done. apply Hwf.
  - by case_decide.
  - assert (forall s, hub_wf (on_close ws (set_readyState ws s h))) as Hclose.
    { intros st. unfold on_close. simpl.
      destruct (ws_conversationId h !! ws) as [c|]; [|done].
      case_decide; [|done].
      destruct (clients h !! c) as [s|] eqn:Hs; [|done].
      intros c' s'. simpl. destruct (decide (c = c')) as [->|].
      - rewrite lookup_insert_eq. intros [= <-]. by eapply set_delete_NoDup, Hwf.
      - rewrite lookup_insert_ne by done. apply Hwf. }
    by destruct (readyState h !! ws) as [[]|].
  - intros c' s'. rewrite broadcastMessage_clients. apply Hwf.
Qed.

Lemma hub_run_wf h events : hub_wf h -> hub_wf (hub_run h events).
Proof.
  revert h. induction events as [|e events IH]; intros h Hwf; [done|].
  simpl. by apply IH, hub_step_wf.
Qed.

Lemma hub_init_wf : hub_wf hub_init.
Proof. intros c s. unfold hub_init. simpl. by rewrite lookup_empty. Qed.

(** One payload sent to each selected socket of a set reaches a given
    socket once if it is selected, and not at all otherwise. *)
Lemma delivered_once ws (payload : Envelope) (P : WebSocket -> Prop)
    `{!forall x, Decision (P x)} s :
  NoDup s ->
  delivered ws ((fun client => (client, payload)) <$> filter P s) =
    if decide (ws ∈ s /\ P ws) then [payload] else [].
Proof.
  unfold delivered. induction 1 as [|x s Hx Hs IH].
  - rewrite decide_False; [done|]. intros [[]%elem_of_nil _].
  - rewrite filter_cons. destruct (decide (P x)) as [HP|HP].
    + rewrite fmap_cons, filter_cons. cbn [fst].
      destruct (decide (x = ws)) as [->|Hne].
      * rewrite fmap_cons, IH. cbn [snd].
        rewrite decide_False by (by intros [? _]).
        rewrite decide_True; [done|]. split; [by left|done].
      * rewrite IH. apply decide_ext. rewrite elem_of_cons. naive_solver.
    + rewrite IH. apply decide_ext. rewrite elem_of_cons. naive_solver.
Qed.

(** C5, as the specification words it, fails: the hub does not know whose
    connection a socket is and leaves no one out.  User [u1], the sender of
    the sample message, has socket 1 open and joined to conversation 7; the
    broadcast of the message sends it to that socket too. *)
Lemma broadcast_reaches_sender :
  ~ excludes_sender 1%nat 7 sample_message
      (hub_run hub_init [Connection 1%nat; Frame 1%nat (Parsed "join" 7)]).
Proof. unfold excludes_sender. vm_compute. discriminate. Qed.

(** C5, amended.  In every state the hub can reach, a broadcast to a
    conversation sends the envelope [{type: "message:new", data: message}]
    once to each socket of the conversation's set that is open, the
    sender's own included, and nothing to any other socket; the sets are
    left as they are, closed sockets stay in them. *)
Theorem broadcastMessage_delivery events conversationId message ws :
  let h := hub_run hub_init events in
  let h' := broadcastMessage conversationId message h in
  clients h' = clients h /\
  readyState h' = readyState h /\
  exists new,
    sent h' = sent h ++ new /\
    delivered ws new =
      if decide (ws ∈ subscribers h conversationId /\
                 readyState h !! ws = Some OPEN)
      then [mkEnvelope "message:new" message] else [].
Proof.
  intros h h'. unfold h'.
  split; [apply broadcastMessage_clients|].
  split; [apply broadcastMessage_readyState|].
  eexists. split; [apply broadcastMessage_sent|].
  rewrite (delivered_once ws _ (fun client => readyState h !! client = Some OPEN)).
  - by apply decide_ext.
  - unfold subscribers. destruct (clients h !! conversationId) as [s|] eqn:Hs.
    + simpl. eapply (hub_run_wf hub_init events hub_init_wf), Hs.
    + apply NoDup_nil_2.
Qed.

(** The broadcast is the one the message handler makes: when POST
    /api/conversations/:id/messages answers 201, the hub has broadcast the
    stored message to the conversation of the path. *)
Lemma post_message_broadcasts sub id content now s message s' :
  post_message sub id content now s = (Json 201 message, s') ->
  exists C,
    parseInt id = Num C /\
    msg_conversationId message = C /\
    msg_senderId message = sub /\
    server_hub s' = broadcastMessage C message (server_hub s).
Proof.
  unfold post_message, parsed, with_id.
  destruct (z_string_min1 "content" content) as [text|e]; [|done].
  destruct (parseInt id) as [|C]; [done|].
  destruct (decide (int4 C)); [|done].
  destruct (getConversation C (server_db s)) as [[[conversation|]|e] db2];
    [|done..].
  destruct (is_member sub conversation); [|done].
  unfold createMessage, mbind, Store_bind, bind, insert_message.
  destruct (has_nul text); [done|].
  case_decide; [|done]. simpl. intros [= <- <-]. by exists C.
Qed.

(* ===================================================================== *)
(** * Listing messages *)
(* ===================================================================== *)

Lemma Sorted_fmap_inv {A B} (R : relation B) (f : A -> B) (l : list A) :
  Sorted R (f <$> l) -> Sorted (fun x y => R (f x) (f y)) l.
Proof.
  induction l as [|x l IH]; simpl; intros Hs; [constructor|].
  apply Sorted_inv in Hs as [Hs Hhd]. constructor; [by apply IH|].
  destruct l; simpl in *; constructor. by apply HdRel_inv in Hhd.
Qed.

Lemma Sorted_fmap_2 {A B} (R : relation B) (f : A -> B) (l : list A) :
  Sorted (fun x y => R (f x) (f y)) l -> Sorted R (f <$> l).
Proof. by apply Sorted_fmap. Qed.

Lemma Sorted_drop {A} (R : relation A) n (l : list A) :
  Sorted R l -> Sorted R (drop n l).
Proof.
  revert l. induction n as [|n IH]; intros l Hs; [by rewrite drop_0|].
  destruct l as [|x l]; [done|]. simpl. apply IH. by apply Sorted_inv in Hs as [? _].
Qed.

Lemma Sorted_take {A} (R : relation A) n (l : list A) :
  Sorted R l -> Sorted R (take n l).
Proof.
  revert l. induction n as [|n IH]; intros l Hs; [constructor|].
  destruct l as [|x l]; [done|]. simpl.
  apply Sorted_inv in Hs as [Hs Hhd]. constructor; [by apply IH|].
  destruct l, n; simpl; constructor. by apply HdRel_inv in Hhd.
Qed.

Lemma filter_fst_fmap {A B} (P : A -> Prop) `{!forall x, Decision (P x)}
    `{!forall r : A * B, Decision (P r.1)} (l : list (A * B)) :
  fst <$> filter (fun r => P r.1) l = filter P (fst <$> l).
Proof.
  induction l as [|[x y] l IH]; [done|].
  rewrite fmap_cons, !filter_cons. simpl.
  repeat case_decide; try done. by rewrite fmap_cons, IH.
Qed.

(** The rows [getMessages] reads before it orders and cuts them: under the
    constraints of the schema, one per message of the conversation, in the
    order of the table, each with the user who sent it. *)
Lemma getMessages_rows db conversationId :
  wf_db db ->
  let rows :=
    filter (fun r : Message * User => msg_conversationId r.1 = conversationId)
      (innerJoin (messages db) (users db) msg_senderId user_id) in
  fst <$> rows = conversation_messages db conversationId /\
  Forall (fun r => r.2 ∈ users db /\ user_id r.2 = msg_senderId r.1) rows.
Proof.
  intros Hwf rows.
  destruct (innerJoin_foreign_key (messages db) (users db) msg_senderId user_id)
    as [Hfst Hsnd].
  { apply Hwf. }
  { eapply Forall_impl; [apply (messages_fk db Hwf)|]. by intros m [_ ?]. }
  split.
  - unfold rows, conversation_messages. rewrite <- Hfst at 2.
    apply (filter_fst_fmap (fun m => msg_conversationId m = conversationId)).
  - unfold rows. apply Forall_forall. intros r [_ Hr]%list_elem_of_filter.
    rewrite Forall_forall in Hsnd. by apply Hsnd.
Qed.

(** A run of [createMessages] that succeeds appends its messages to the
    table, stamped with the clock of each call, and touches nothing else. *)
Lemma createMessages_ok conversationId calls db created db' :
  createMessages conversationId calls db = (Ok created, db') ->
  users db' = users db /\
  conversations db' = conversations db /\
  messages db' = messages db ++ created /\
  Forall (fun m => msg_conversationId m = conversationId) created /\
  (fun m => (msg_senderId m, msg_content m, msg_createdAt m)) <$> created =
    (fun c => (call_senderId c, call_content c, call_now c)) <$> calls.
Proof.
  revert db created. induction calls as [|call calls IH]; intros db created.
  - intros [= <- <-]. by rewrite app_nil_r.
  - simpl. unfold mbind, Store_bind, bind, createMessage, insert_message.
    destruct (has_nul (call_content call)); [done|].
    case_decide as Hfk; [|done].
    destruct (createMessages conversationId calls _) as [[rest|e] db2] eqn:Hrest;
      [|done].
    intros [= <- <-]. apply IH in Hrest as (Hu & Hc & Hm & Hall & Hcalls).
    simpl in *. rewrite Hu, Hc, Hm, <- app_assoc. split_and!; try done.
    + by constructor.
    + simpl. by f_equal.
Qed.

Lemma createMessages_wf conversationId calls db :
  wf_db db -> wf_db (createMessages conversationId calls db).2.
Proof.
  revert db. induction calls as [|call calls IH]; intros db Hwf; [done|].
  simpl. unfold mbind, Store_bind, bind.
  pose proof (createMessage_wf (call_senderId call) conversationId
                (call_content call) (call_now call) db Hwf) as Hwf1.
  destruct (createMessage _ _ _ _ db) as [[message|e] db1]; [|done].
  specialize (IH db1 Hwf1).
  by destruct (createMessages conversationId calls db1) as [[rest|e] db2].
Qed.

(** A limit cuts a prefix, the whole list when the clause is left out. *)
Lemma apply_limit_take {A} (limit : number) (rows : list A) :
  exists n, apply_limit limit rows = take n rows.
Proof.
  destruct limit as [|l]; simpl.
  - exists (length rows). by rewrite take_ge.
  - case_decide; [by eexists|]. exists (length rows). by rewrite take_ge.
Qed.

Lemma limit_offset_ok {A} (limit offset : number) (rows page : list A) :
  limit_offset limit offset rows = Ok page ->
  exists n k, page = take n (drop k rows) /\
              page = apply_limit limit (drop k rows).
Proof.
  unfold limit_offset. destruct offset as [|o].
  - intros [= <-]. destruct (apply_limit_take limit rows) as [n Hn].
    exists n, 0%nat. by rewrite drop_0.
  - case_decide; [done|]. intros [= <-].
    destruct (apply_limit_take limit (drop (Z.to_nat o) rows)) as [n Hn].
    by exists n, (Z.to_nat o).
Qed.

(** On two numbers that are not negative the page is the segment they
    name. *)
Lemma limit_offset_Num {A} (l o : Z) (rows : list A) :
  0 <= l -> 0 <= o ->
  limit_offset (Num l) (Num o) rows =
    Ok (take (Z.to_nat l) (drop (Z.to_nat o) rows)).
Proof.
  intros Hl Ho. unfold limit_offset, apply_limit.
  by rewrite decide_False, decide_True by lia.
Qed.

(** Whatever the table holds, a page of [getMessages] is in ascending
    order of creation time. *)
Lemma getMessages_ascending db conversationId limit offset page db' :
  getMessages conversationId limit offset db = (Ok page, db') ->
  Sorted Z.le (msg_createdAt <$> (sender_message <$> page)).
Proof.
  unfold getMessages.
  destruct (limit_offset _ _ _) as [msgs|e] eqn:Hpage; [|done].
  intros [= <- <-].
  apply limit_offset_ok in Hpage as (n & k & -> & _).
  rewrite <- !list_fmap_compose. apply Sorted_fmap_2. simpl.
  apply Sorted_take, Sorted_drop.
  apply (orderBy_asc_Sorted (fun r : Message * User => msg_createdAt r.1)).
Qed.

(** C3, as the specification words it, fails: the handler checks neither
    number.  With [?limit=-5&offset=-1] it hands -5 and -1 to
    [getMessages].  The limit -5 alone is not refused: the request is
    answered 200, with the messages of the conversation.  The offset -1
    alone reaches the database, and the request ends in its error, not in
    an answer. *)
Lemma messages_page_counterexample :
  messages_page (Some "-5") (Some "-1") = (Num (-5), Num (-1)) /\
  get_messages "u1" "1" (Some "-5") None inbox_db =
    (Json 200 [mkWithSender (mkMessage 1 1 "u2" "hello" 150) bob],
     inbox_db) /\
  get_messages "u1" "1" None (Some "-1") inbox_db =
    (Unhandled (DbError "OFFSET must not be negative"), inbox_db).
Proof. split_and!; reflexivity. Qed.

(** C3, amended.  After a sequence of [createMessage] calls on a
    conversation, made at creation times that increase strictly,
    [getMessages] returns the messages of the conversation oldest first, in
    the order of the calls, each with its sender: the page is the segment
    that an [offset] and a [limit] cut out of that sequence, when they are
    not negative and are counts the database takes.  When the request
    names no limit and no offset they are 50 and 0, in the handler and in
    the store. *)
Theorem getMessages_call_order db conversationId calls created db' limit offset :
  wf_db db ->
  createMessages conversationId calls db = (Ok created, db') ->
  Sorted Z.lt ((msg_createdAt <$> conversation_messages db conversationId)
               ++ (call_now <$> calls)) ->
  0 <= limit <= max_bigint -> 0 <= offset <= max_bigint ->
  exists page,
    getMessages conversationId (Some (Num limit)) (Some (Num offset)) db' =
      (Ok page, db') /\
    sender_message <$> page =
      take (Z.to_nat limit) (drop (Z.to_nat offset)
        (conversation_messages db conversationId ++ created)) /\
    (fun m => (msg_senderId m, msg_content m, msg_createdAt m)) <$> created =
      (fun c => (call_senderId c, call_content c, call_now c)) <$> calls /\
    Sorted Z.le (msg_createdAt <$> (sender_message <$> page)) /\
    Forall (fun r => sender r ∈ users db' /\
                     user_id (sender r) = msg_senderId (sender_message r)) page /\
    getMessages conversationId None None db' =
      getMessages conversationId (Some (Num 50)) (Some (Num 0)) db' /\
    messages_page None None = (Num 50, Num 0).
Proof.
  intros Hwf Hcreate Hclock [Hlimit _] [Hoffset _].
  assert (wf_db db') as Hwf'.
  { pose proof (createMessages_wf conversationId calls db Hwf) as H.
    by rewrite Hcreate in H. }
  destruct (createMessages_ok _ _ _ _ _ Hcreate)
    as (Hu & Hc & Hm & Hall & Hcalls).
  destruct (getMessages_rows db' conversationId Hwf') as [Hfst Hsnd].
  set (rows := filter (fun r : Message * User =>
                         msg_conversationId r.1 = conversationId)
                 (innerJoin (messages db') (users db') msg_senderId user_id))
    in *.
  assert (fst <$> rows = conversation_messages db conversationId ++ created)
    as Hrows.
  { rewrite Hfst. unfold conversation_messages.
    by rewrite Hm, filter_app, (filter_all _ created). }
  assert (orderBy (asc (fun r : Message * User => msg_createdAt r.1)) rows = rows)
    as Hsorted.
  { apply orderBy_sorted.
    apply (Sorted_weaken (fun a b : Message * User =>
                            msg_createdAt a.1 <= msg_createdAt b.1)).
    { intros a b Hab. unfold asc. by apply Z.leb_le. }
    apply (Sorted_fmap_inv Z.le (fun r : Message * User => msg_createdAt r.1)).
    assert ((fun r : Message * User => msg_createdAt r.1) <$> rows =
            msg_createdAt <$> (fst <$> rows)) as ->
      by (by rewrite <- list_fmap_compose).
    rewrite Hrows, fmap_app.
    assert (msg_createdAt <$> created = call_now <$> calls) as ->.
    2:{ eapply Sorted_weaken; [|exact Hclock]. intros a b. lia. }
    apply (f_equal (fmap snd)) in Hcalls.
    by rewrite <- !list_fmap_compose in Hcalls. }
  assert (getMessages conversationId (Some (Num limit)) (Some (Num offset)) db' =
          (Ok ((fun m : Message * User => mkWithSender m.1 m.2) <$>
                 take (Z.to_nat limit) (drop (Z.to_nat offset) rows)), db'))
    as Hget.
  { unfold getMessages. cbn [from_option id]. fold rows.
    by rewrite Hsorted, limit_offset_Num. }
  eexists. split; [exact Hget|]. split_and!.
  - by rewrite <- list_fmap_compose, <- Hrows, fmap_take, fmap_drop.
  - done.
  - by eapply getMessages_ascending.
  - rewrite Forall_fmap. apply Forall_take, Forall_drop.
    eapply Forall_impl; [exact Hsnd|]. by intros [m u].
  - done.
  - done.
Qed.

Lemma getMessages_call_order_witness :
  exists page,
    getMessages 1 (Some (Num 50)) (Some (Num 0))
      (createMessages 1 [mkCall "u1" "hi" 200; mkCall "u2" "hello" 205]
         chat_db).2 =
      (Ok page,
       (createMessages 1 [mkCall "u1" "hi" 200; mkCall "u2" "hello" 205]
          chat_db).2) /\
    sender_message <$> page =
      take (Z.to_nat 50) (drop (Z.to_nat 0)
        (conversation_messages chat_db 1 ++
           [mkMessage 1 1 "u1" "hi" 200; mkMessage 2 1 "u2" "hello" 205])) /\
    (fun m => (msg_senderId m, msg_content m, msg_createdAt m)) <$>
      [mkMessage 1 1 "u1" "hi" 200; mkMessage 2 1 "u2" "hello" 205] =
      (fun c => (call_senderId c, call_content c, call_now c)) <$>
        [mkCall "u1" "hi" 200; mkCall "u2" "hello" 205] /\
    Sorted Z.le (msg_createdAt <$> (sender_message <$> page)) /\
    Forall (fun r =>
              sender r ∈ users
                (createMessages 1 [mkCall "u1" "hi" 200; mkCall "u2" "hello" 205]
                   chat_db).2 /\
              user_id (sender r) = msg_senderId (sender_message r)) page /\
    getMessages 1 None None
      (createMessages 1 [mkCall "u1" "hi" 200; mkCall "u2" "hello" 205]
         chat_db).2 =
      getMessages 1 (Some (Num 50)) (Some (Num 0))
        (createMessages 1 [mkCall "u1" "hi" 200; mkCall "u2" "hello" 205]
           chat_db).2 /\
    messages_page None None = (Num 50, Num 0).
Proof.
  apply (getMessages_call_order chat_db 1
           [mkCall "u1" "hi" 200; mkCall "u2" "hello" 205]
           [mkMessage 1 1 "u1" "hi" 200; mkMessage 2 1 "u2" "hello" 205]).
  - apply createConversation_wf, wf_initial_db. compute_done.
  - reflexivity.
  - simpl. repeat constructor; lia.
  - unfold max_bigint. lia.
  - unfold max_bigint. lia.
Defined.

(* ===================================================================== *)
(** * Listing conversations *)
(* ===================================================================== *)

Lemma Sorted_weaken_on {A} (P : A -> Prop) (R1 R2 : relation A) l :
  (forall a b, P a -> P b -> R1 a b -> R2 a b) ->
  Forall P l -> Sorted R1 l -> Sorted R2 l.
Proof.
  intros HR HP. induction 1 as [|x l Hl IH Hx]; [constructor|].
  apply Forall_cons in HP as [HPx HPl]. constructor; [by apply IH|].
  destruct Hx as [|y l Hxy]; constructor.
  apply Forall_cons in HPl as [HPy _]. by apply HR.
Qed.

(** [last_message] finds the newest message of the conversation. *)
Lemma last_message_newest db conversationId :
  newest_message db conversationId (last_message db conversationId).
Proof.
  unfold last_message. fold (conversation_messages db conversationId).
  pose proof (orderBy_Permutation (desc msg_createdAt)
                (conversation_messages db conversationId)) as Hperm.
  pose proof (orderBy_desc_Sorted msg_createdAt
                (conversation_messages db conversationId)) as Hsorted.
  destruct (orderBy (desc msg_createdAt) _) as [|m rest]; simpl.
  - symmetry in Hperm. by apply Permutation_nil_r in Hperm.
  - split; [rewrite <- Hperm; by left|].
    rewrite <- Hperm.
    assert (Transitive (fun a b : Message => msg_createdAt b <= msg_createdAt a))
      by (intros a b c; lia).
    apply Sorted_StronglySorted in Hsorted; [|done].
    apply StronglySorted_inv in Hsorted as [_ Hrest].
    constructor; [lia|done].
Qed.

(** Away from the epoch, the time the comparator reads is the effective
    timestamp. *)
Lemma sort_time_effective a :
  (forall m, lastMessage a = Some m -> msg_createdAt m <> 0) ->
  sort_time a = effective_timestamp a.
Proof.
  unfold sort_time, effective_timestamp. intros Hm.
  destruct (lastMessage a) as [m|]; [|done].
  by rewrite decide_False by by apply Hm.
Qed.

Lemma member_of_ids db userId c :
  Exists (fun id => conv_id c = id)
    (member_conversationId <$>
       filter (fun m => member_userId m = userId) (conversationMembers db))
  <-> member_of db userId c.
Proof.
  unfold member_of. rewrite !Exists_exists. split.
  - intros (id & Hin & Hc). apply list_elem_of_fmap in Hin as (m & -> & Hm).
    apply list_elem_of_filter in Hm as [Hu Hm]. by exists m.
  - intros (m & Hm & Hu & Hc). exists (member_conversationId m).
    split; [|done]. apply list_elem_of_fmap. exists m. split; [done|].
    by apply list_elem_of_filter.
Qed.

(** C4. [getConversations] answers with the empty list, not with an error,
    for a user who is in no conversation.  Otherwise it answers with one
    summary for each conversation the user is a member of, each carrying
    the newest message of its conversation and an unread count of zero,
    sorted by effective timestamp, newest first.  (Timestamps are taken
    away from the epoch: the comparator reads a message time of 0 as no
    time.) *)
Theorem getConversations_newest_first db userId :
  Forall (fun m => msg_createdAt m <> 0) (messages db) ->
  exists l,
    getConversations userId db = (Ok l, db) /\
    (Forall (fun m => member_userId m <> userId) (conversationMembers db) ->
     l = []) /\
    Sorted (fun a b => effective_timestamp b <= effective_timestamp a) l /\
    Forall (fun a => unreadCount a = 0) l /\
    summary_conversation <$> l ≡ₚ
      filter (member_of db userId) (conversations db) /\
    Forall (fun a => newest_message db (conv_id (summary_conversation a))
                       (lastMessage a)) l.
Proof.
  intros Hepoch.
  unfold getConversations, mbind, Store_bind, bind, query. simpl.
  set (ids := member_conversationId <$>
                filter (fun m => member_userId m = userId)
                  (conversationMembers db)).
  assert (filter (fun c => Exists (fun id => conv_id c = id) ids)
            (conversations db) =
          filter (member_of db userId) (conversations db)) as Hfilter.
  { apply list_filter_iff. intros c. apply member_of_ids. }
  case_decide as Hnone; simpl.
  - exists []. split_and!; try done; try constructor.
    rewrite <- Hfilter. destruct ids; [|done].
    rewrite filter_none; [done|]. apply Forall_forall.
    by intros c _ Hex%Exists_nil.
  - set (found := orderBy (desc conv_createdAt)
                    (filter (fun c => Exists (fun id => conv_id c = id) ids)
                       (conversations db))).
    set (enriched := enrich db userId <$> found).
    assert (Forall (fun a =>
              unreadCount a = 0 /\
              newest_message db (conv_id (summary_conversation a))
                (lastMessage a)) enriched) as Henriched.
    { unfold enriched. rewrite Forall_fmap. apply Forall_forall.
      intros c _. simpl. split; [done|]. apply last_message_newest. }
    pose proof (orderBy_Permutation newest_first enriched) as Hperm.
    exists (orderBy newest_first enriched). split_and!.
    + done.
    + intros Hno. exfalso. apply Hnone. unfold ids.
      rewrite filter_none; [done|]. by eapply Forall_impl.
    + apply (Sorted_weaken_on
               (fun a => sort_time a = effective_timestamp a)
               (fun a b => newest_first a b = true)).
      * intros a b Ha Hb. unfold newest_first. rewrite Ha, Hb. lia.
      * rewrite Hperm. eapply Forall_impl; [exact Henriched|]. simpl.
        intros a [_ Hnewest]. apply sort_time_effective. intros m Hm.
        rewrite Hm in Hnewest. destruct Hnewest as [Hin _].
        apply list_elem_of_filter in Hin as [_ Hin].
        rewrite Forall_forall in Hepoch. by apply Hepoch.
      * apply orderBy_Sorted. intros a b. unfold newest_first. lia.
    + rewrite Hperm. eapply Forall_impl; [exact Henriched|]. by intros a [? _].
    + rewrite Hperm. unfold enriched. rewrite <- list_fmap_compose.
      rewrite <- Hfilter.
      etrans; [|apply (orderBy_Permutation (desc conv_createdAt))].
      fold found. by rewrite list_fmap_id.
    + rewrite Hperm. eapply Forall_impl; [exact Henriched|]. by intros a [_ ?].
Qed.

Lemma getConversations_newest_first_witness :
  exists l,
    getConversations "u1" inbox_db = (Ok l, inbox_db) /\
    (Forall (fun m => member_userId m <> "u1") (conversationMembers inbox_db) ->
     l = []) /\
    Sorted (fun a b => effective_timestamp b <= effective_timestamp a) l /\
    Forall (fun a => unreadCount a = 0) l /\
    summary_conversation <$> l ≡ₚ
      filter (member_of inbox_db "u1") (conversations inbox_db) /\
    Forall (fun a => newest_message inbox_db (conv_id (summary_conversation a))
                       (lastMessage a)) l.
Proof.
  apply (getConversations_newest_first inbox_db "u1").
  compute_done.
Defined.

(* ===================================================================== *)
(** * Building a URL *)
(* ===================================================================== *)

Lemma append_cons c s t : String c s +:+ t = String c (s +:+ t).
Proof. done. Qed.

Lemma append_assoc s t u : (s +:+ t) +:+ u = s +:+ t +:+ u.
Proof.
  induction s as [|c s IH]; [done|]. rewrite !append_cons. by f_equal.
Qed.

Lemma strip_prefix_Some p s r : strip_prefix p s = Some r <-> s = p +:+ r.
Proof.
  revert s. induction p as [|c p IH]; intros s; simpl.
  - split; [by intros [= ->]|by intros ->].
  - rewrite append_cons. destruct s as [|d s]; [done|].
    destruct (Ascii.eqb_spec c d) as [->|Hne].
    + rewrite IH. split; [by intros ->|by intros [= ->]].
    + split; [done|]. by intros [= <- _].
Qed.

Lemma split_first_Some p s before after :
  split_first p s = Some (before, after) -> s = before +:+ p +:+ after.
Proof.
  revert before. induction s as [|c s IH]; intros before; simpl.
  - destruct (strip_prefix p EmptyString) as [r|] eqn:Hp; [|done].
    intros [= <- <-]. by apply strip_prefix_Some in Hp.
  - destruct (strip_prefix p (String c s)) as [r|] eqn:Hp.
    + intros [= <- <-]. by apply strip_prefix_Some in Hp.
    + destruct (split_first p s) as [[b a]|]; [|done].
      intros [= <- <-]. rewrite append_cons. f_equal. by apply IH.
Qed.

Lemma split_first_None p s :
  split_first p s = None -> forall before after, s <> before +:+ p +:+ after.
Proof.
  induction s as [|c s IH]; simpl.
  - destruct (strip_prefix p EmptyString) as [r|] eqn:Hp; [done|].
    intros _ [|d before] after Hs; [|done].
    assert (strip_prefix p EmptyString = Some after) as Hafter
      by by apply strip_prefix_Some.
    congruence.
  - destruct (strip_prefix p (String c s)) as [r|] eqn:Hp; [done|].
    destruct (split_first p s) as [[b a]|] eqn:Hs; [done|].
    intros _ [|d before] after Heq.
    + assert (strip_prefix p (String c s) = Some after) as Hafter
        by by apply strip_prefix_Some.
      congruence.
    + rewrite append_cons in Heq. injection Heq as -> ->.
      by eapply IH.
Qed.

Lemma occurs_cons c d s : occurs c (String d s) = Ascii.eqb c d || occurs c s.
Proof. done. Qed.

(** The first occurrence is the one no colon precedes. *)
Lemma split_first_colon key before after :
  occurs ":" before = false ->
  split_first (String ":" key) (before +:+ String ":" key +:+ after) =
    Some (before, after).
Proof.
  induction before as [|c before IH]; intros Hno.
  - change (EmptyString +:+ String ":" key +:+ after)
      with (String ":" key +:+ after).
    assert (strip_prefix (String ":" key) (String ":" key +:+ after) =
            Some after) as Hp by by apply strip_prefix_Some.
    rewrite append_cons in *. simpl in *. by rewrite Hp.
  - rewrite occurs_cons in Hno. apply orb_false_iff in Hno as [Hc Hno].
    rewrite append_cons. cbn -[Ascii.eqb]. rewrite Hc. by rewrite (IH Hno).
Qed.

Lemma get_substitution_plain matched before after template :
  occurs "$" template = false ->
  get_substitution matched before after template = template.
Proof.
  induction template as [|c t IH]; [done|]. rewrite occurs_cons.
  intros [Hc Ht]%orb_false_iff. cbn -[Ascii.eqb].
  rewrite Ascii.eqb_sym, Hc. f_equal. by apply IH.
Qed.

(** [buildUrl] returns the path as it is when there are no parameters and
    when no key of the parameters occurs in the path behind a colon. *)
Theorem buildUrl_without_placeholder path entries :
  (forall key value before after,
     (key, value) ∈ entries -> path <> before +:+ ":" +:+ key +:+ after) ->
  buildUrl path None = path /\ buildUrl path (Some entries) = path.
Proof.
  intros Hnone. split; [done|]. simpl.
  induction entries as [|[key value] entries IH]; [done|]. simpl.
  assert (includes path (":" +:+ key) = false) as ->.
  { unfold includes.
    destruct (split_first (":" +:+ key) path) as [[b a]|] eqn:Hs; [|done].
    apply split_first_Some in Hs. exfalso.
    eapply (Hnone key value b a); [by left|done]. }
  apply IH. intros k v b a Hin. apply (Hnone k v). by right.
Qed.

Lemma buildUrl_without_placeholder_witness :
  buildUrl "/api/contacts" None = "/api/contacts" /\
  buildUrl "/api/contacts" (Some [("id", "5")]) = "/api/contacts".
Proof.
  apply (buildUrl_without_placeholder "/api/contacts" [("id", "5")]).
  intros key value before after [= -> ->]%list_elem_of_singleton.
  by apply (split_first_None (":" +:+ "id") "/api/contacts").
Defined.

(** With one parameter, [buildUrl] puts the value in the place of the
    first [:key] of the path and leaves any later [:key] alone; the value
    is taken literally when it has no dollar sign. *)
Theorem buildUrl_first_placeholder before key value after :
  occurs ":" before = false -> occurs "$" value = false ->
  buildUrl (before +:+ ":" +:+ key +:+ after) (Some [(key, value)]) =
    before +:+ value +:+ after.
Proof.
  intros Hbefore Hvalue. simpl. unfold includes, replace.
  change (":" +:+ key) with (String ":" key).
  change (before +:+ ":" +:+ key +:+ after)
    with (before +:+ String ":" key +:+ after).
  rewrite (split_first_colon key before after Hbefore).
  by rewrite get_substitution_plain.
Qed.

Lemma buildUrl_first_placeholder_witness :
  buildUrl ("/api/conversations/" +:+ ":" +:+ "id" +:+ "/:id")
    (Some [("id", "42")]) =
  "/api/conversations/" +:+ "42" +:+ "/:id".
Proof.
  apply (buildUrl_first_placeholder "/api/conversations/" "id" "42" "/:id");
    reflexivity.
Defined.

(* ===================================================================== *)
(** * More on contacts *)
(* ===================================================================== *)

Lemma first_row_Some {A} (P : A -> Prop) `{!forall x, Decision (P x)}
    (l : list A) x :
  first_row (filter P l) = Some x -> x ∈ l /\ P x.
Proof.
  unfold first_row. intros Hhead.
  assert (x ∈ filter P l) as Hin.
  { destruct (filter P l) as [|y l']; [done|]. injection Hhead as ->. by left. }
  apply list_elem_of_filter in Hin. tauto.
Qed.

(** The ways a call of [addContact] can end. *)
Lemma addContact_cases userId contactUsername now db r db1 :
  addContact userId contactUsername now db = (r, db1) ->
  (r = Throw (JsError "User not found") /\ db1 = db) \/
  (r = Throw (JsError "Cannot add yourself as a contact") /\ db1 = db) \/
  exists c,
    c ∈ users db /\ user_email c = Some contactUsername /\
    user_id c <> userId /\
    ((r = Ok c /\ db1 = db /\ contact_edges db userId (user_id c) <> []) \/
     (r = Ok c /\ contact_edges db userId (user_id c) = [] /\
      users db1 = users db /\
      contacts db1 =
        contacts db ++ [mkContact (contacts_seq db) userId (user_id c) now]) \/
     (r = Throw (fk_violation "contacts") /\
      contact_edges db userId (user_id c) = [] /\
      users db1 = users db /\ contacts db1 = contacts db)).
Proof.
  unfold addContact, mbind, Store_bind, bind, query. simpl.
  destruct (first_row (filter _ (users db))) as [c|] eqn:Hfound; simpl.
  2:{ intros [= <- <-]. by left. }
  apply first_row_Some in Hfound as [Hin Hemail].
  case_decide as Hself; simpl.
  { intros [= <- <-]. right. by left. }
  fold (contact_edges db userId (user_id c)). intros Hadd.
  right. right. exists c. split_and!; [done..|]. revert Hadd.
  destruct (contact_edges db userId (user_id c)) as [|e l] eqn:Hedges; simpl.
  - unfold insert_contact. case_decide as Hfk; simpl.
    + intros [= <- <-]. right. by left.
    + intros [= <- <-]. right. by right.
  - intros [= <- <-]. by left.
Qed.

(** After [addContact] has returned a contact, [getContacts] of the caller
    lists it. *)
Theorem addContact_then_getContacts userId contactUsername now db c db1 :
  addContact userId contactUsername now db = (Ok c, db1) ->
  exists l, getContacts userId db1 = (Ok l, db1) /\ c ∈ l.
Proof.
  intros Hadd. eexists. split; [reflexivity|].
  assert (c ∈ users db1 /\
          exists e, e ∈ contacts db1 /\ contact_userId e = userId /\
                    contact_contactId e = user_id c) as [Hc (e & He & Hu & Hid)].
  { apply addContact_cases in Hadd
      as [[? _]|[[? _]|(c' & Hin & _ & _ &
            [([= <-] & -> & Hedges)|[([= <-] & _ & Hus & Hcs)|[? _]]])]];
      try done.
    - split; [done|]. unfold contact_edges in Hedges.
      destruct (filter _ (contacts db)) as [|e l] eqn:Hf; [done|].
      assert (e ∈ filter (fun c0 => contact_userId c0 = userId /\
                                    contact_contactId c0 = user_id c)
                     (contacts db)) as He by (rewrite Hf; by left).
      apply list_elem_of_filter in He as [[? ?] ?]. by exists e.
    - rewrite Hus, Hcs. split; [done|]. eexists. split.
      + apply elem_of_app. right. by left.
      + done. }
  apply list_elem_of_fmap. exists (e, c). split; [done|].
  apply list_elem_of_filter. split; [done|].
  by apply elem_of_innerJoin.
Qed.

Lemma addContact_then_getContacts_witness :
  exists l,
    getContacts "u1" (addContact "u1" "bob@example.com" 5 sample_db).2 =
      (Ok l, (addContact "u1" "bob@example.com" 5 sample_db).2) /\
    bob ∈ l.
Proof.
  apply (addContact_then_getContacts "u1" "bob@example.com" 5 sample_db bob).
  reflexivity.
Defined.

Lemma addContact_tables userId contactUsername now db :
  users (addContact userId contactUsername now db).2 = users db /\
  (contacts (addContact userId contactUsername now db).2 = contacts db \/
   exists e, contact_userId e = userId /\
     contacts (addContact userId contactUsername now db).2 =
       contacts db ++ [e]).
Proof.
  destruct (addContact userId contactUsername now db) as [r db1] eqn:Hadd.
  simpl.
  apply addContact_cases in Hadd
    as [[_ ->]|[[_ ->]|(c & _ & _ & _ &
          [(_ & -> & _)|[(_ & _ & -> & ->)|(_ & _ & -> & ->)]])]];
    split; try done; try by left.
  right. eexists. split; [|reflexivity]. done.
Qed.

(** A contact is a directed edge: whatever [addContact] does for one user,
    the contact list of every other user stays as it is. *)
Theorem addContact_other_users userId contactUsername now db other :
  other <> userId ->
  (getContacts other (addContact userId contactUsername now db).2).1 =
    (getContacts other db).1.
Proof.
  intros Hother.
  destruct (addContact_tables userId contactUsername now db)
    as [Husers [Hcontacts|(e & He & Hcontacts)]].
  - unfold getContacts, mbind, Store_bind, bind, query. simpl.
    by rewrite Husers, Hcontacts.
  - unfold getContacts, mbind, Store_bind, bind, query. simpl.
    rewrite Husers, Hcontacts, innerJoin_app, filter_app.
    rewrite (filter_none _ (innerJoin [e] _ _ _)); [by rewrite app_nil_r|].
    apply Forall_forall. intros [e' u] [Hin _]%elem_of_innerJoin. simpl.
    apply list_elem_of_singleton in Hin as ->. congruence.
Qed.

Lemma addContact_other_users_witness :
  (getContacts "u2" (addContact "u1" "bob@example.com" 5 sample_db).2).1 =
    (getContacts "u2" sample_db).1.
Proof.
  apply (addContact_other_users "u1" "bob@example.com" 5 sample_db "u2").
  compute_done.
Defined.

(** [addContact] keeps the table of contacts free of self-edges and of
    repeated edges. *)
Theorem addContact_keeps_contacts_ok userId contactUsername now db :
  contacts_ok db -> contacts_ok (addContact userId contactUsername now db).2.
Proof.
  intros [Hself Hdup].
  destruct (addContact userId contactUsername now db) as [r db1] eqn:Hadd.
  simpl.
  apply addContact_cases in Hadd
    as [[_ ->]|[[_ ->]|(c & _ & _ & Hne &
          [(_ & -> & _)|[(_ & Hedges & _ & Hcs)|(_ & _ & _ & Hcs)]])]];
    try done.
  - unfold contacts_ok. rewrite Hcs. split.
    + apply Forall_app. split; [done|]. constructor; [|done]. simpl. congruence.
    + rewrite fmap_app. apply NoDup_app. split_and!; [done| |apply NoDup_singleton].
      intros pair Hin ->%list_elem_of_singleton.
      apply list_elem_of_fmap in Hin as (e & Hpair & He).
      injection Hpair as Hu Hc.
      assert (e ∈ contact_edges db userId (user_id c)) as Hedge
        by by apply list_elem_of_filter.
      rewrite Hedges in Hedge. by apply elem_of_nil in Hedge.
  - unfold contacts_ok. by rewrite Hcs.
Qed.

Lemma addContact_keeps_contacts_ok_witness :
  contacts_ok (addContact "u1" "bob@example.com" 5 sample_db).2.
Proof.
  apply (addContact_keeps_contacts_ok "u1" "bob@example.com" 5 sample_db).
  split; [constructor|constructor].
Defined.

(** POST /api/contacts answers 201 or 400 and nothing else.  With 201 the
    contact is another user than the caller and the caller has an edge to
    it; with 400 the table of contacts is as it was. *)
Theorem post_contacts_answers sub username now db :
  (exists c,
     (post_contacts sub username now db).1 = Json 201 c /\
     user_id c <> sub /\
     contact_edges (post_contacts sub username now db).2 sub (user_id c) <> [])
  \/
  (exists message,
     (post_contacts sub username now db).1 = Failure 400 message /\
     contacts (post_contacts sub username now db).2 = contacts db).
Proof.
  unfold post_contacts, parsed, z_string, mbind, Store_bind, bind.
  destruct username as [username|]; cbv beta iota.
  2:{ right. by eexists. }
  destruct (addContact sub username now db) as [r db1] eqn:Hadd.
  apply addContact_cases in Hadd
    as [[-> ->]|[[-> ->]|(c & _ & _ & Hne &
          [(-> & -> & Hedges)|[(-> & Hedges & _ & Hcs)|(-> & _ & _ & Hcs)]])]];
    simpl.
  - right. by eexists.
  - right. by eexists.
  - left. by exists c.
  - left. exists c. split_and!; [done..|].
    unfold contact_edges. rewrite Hcs, filter_app.
    rewrite (filter_cons_True _ (mkContact _ _ _ _)) by done.
    by destruct (filter _ (contacts db)).
  - right. by eexists.
Qed.

(* ===================================================================== *)
(** * More on conversations *)
(* ===================================================================== *)

Lemma getConversation_None id db :
  getConversation id db = (Ok None, db) <-> ~ conversation_exists db id.
Proof.
  unfold getConversation, mbind, Store_bind, bind, query, conversation_exists.
  simpl. destruct (first_row _) as [c|] eqn:Hfound; simpl.
  - apply first_row_Some in Hfound as [Hin Hid]. split; [done|].
    intros Hno. exfalso. apply Hno. rewrite <- Hid. by apply list_elem_of_fmap_2.
  - split; [|done]. intros _ (c & Hid & Hin)%list_elem_of_fmap.
    unfold first_row in Hfound.
    assert (c ∈ filter (fun c0 => conv_id c0 = id) (conversations db)) as Hc
      by by apply list_elem_of_filter.
    destruct (filter _ (conversations db)); [by apply elem_of_nil in Hc|done].
Qed.

(** [getConversation] never throws and never writes. *)
Lemma getConversation_reads id db :
  exists o, getConversation id db = (Ok o, db).
Proof.
  unfold getConversation, mbind, Store_bind, bind, query. simpl.
  destruct (first_row _); by eexists.
Qed.

Lemma is_member_iff sub c :
  is_member sub c = true <-> sub ∈ user_id <$> members c.
Proof.
  unfold is_member. rewrite bool_decide_eq_true, Exists_exists, list_elem_of_fmap.
  split; intros (u & ? & ?); by exists u.
Qed.

(** Under the constraints of the schema, the member list [getConversation]
    returns has one user for each membership row of the conversation, in
    the order of the rows, so that a user passes the membership test of the
    REST surface exactly when he has such a row. *)
Theorem getConversation_members db id c db' :
  wf_db db ->
  getConversation id db = (Ok (Some c), db') ->
  db' = db /\
  members_conversation c ∈ conversations db /\
  conv_id (members_conversation c) = id /\
  user_id <$> members c = member_userId <$> conversation_rows db id /\
  (forall sub,
     is_member sub c = true <->
     exists m, m ∈ conversation_rows db id /\ member_userId m = sub).
Proof.
  intros Hwf.
  unfold getConversation, mbind, Store_bind, bind, query. simpl.
  destruct (first_row _) as [conversation|] eqn:Hfound; simpl; [|done].
  apply first_row_Some in Hfound as [Hin Hid]. intros [= <- <-]. simpl.
  destruct (innerJoin_foreign_key (conversationMembers db) (users db)
              member_userId user_id) as [Hfst Hsnd].
  { apply Hwf. }
  { eapply Forall_impl; [apply (conversationMembers_fk db Hwf)|].
    by intros m [_ ?]. }
  assert (user_id <$>
            (filter (fun r : ConversationMember * User =>
                       member_conversationId r.1 = id)
               (innerJoin (conversationMembers db) (users db)
                  member_userId user_id)).*2 =
          member_userId <$> conversation_rows db id) as Hmembers.
  { unfold conversation_rows. rewrite <- Hfst at 2.
    rewrite <- (filter_fst_fmap (fun m => member_conversationId m = id)).
    rewrite <- !list_fmap_compose. apply Forall_fmap_ext.
    apply Forall_forall. intros r [_ Hr]%list_elem_of_filter.
    rewrite Forall_forall in Hsnd. by apply Hsnd. }
  split_and!; try done.
  intros sub. rewrite is_member_iff. simpl. rewrite Hmembers.
  rewrite list_elem_of_fmap. split; intros (m & ? & ?); by exists m.
Qed.

Lemma getConversation_members_witness :
  chat_db = chat_db /\
  members_conversation (mkWithMembers (created_conversation sample_db 100)
                          [alice; bob]) ∈ conversations chat_db /\
  conv_id (members_conversation
             (mkWithMembers (created_conversation sample_db 100)
                [alice; bob])) = 1 /\
  user_id <$> members (mkWithMembers (created_conversation sample_db 100)
                         [alice; bob]) =
    member_userId <$> conversation_rows chat_db 1 /\
  (forall sub,
     is_member sub (mkWithMembers (created_conversation sample_db 100)
                      [alice; bob]) = true <->
     exists m, m ∈ conversation_rows chat_db 1 /\ member_userId m = sub).
Proof.
  apply (getConversation_members chat_db 1
           (mkWithMembers (created_conversation sample_db 100) [alice; bob])
           chat_db).
  - apply createConversation_wf, wf_initial_db. compute_done.
  - reflexivity.
Defined.

(** GET /api/conversations/:id with a numeric id never writes.  An id
    within the range of the id column is answered: 200 with the
    conversation only to one of its members, 404 when there is no such
    conversation, 401 to anyone else.  An id beyond that range makes the
    query fail, and the handler, which has no [try], sends no answer. *)
Theorem get_conversation_answers sub s id db :
  parseInt s = Num id ->
  (get_conversation sub s db).2 = db /\
  match (get_conversation sub s db).1 with
  | Json status c =>
      int4 id /\
      status = 200 /\ getConversation id db = (Ok (Some c), db) /\
      sub ∈ user_id <$> members c
  | Failure status _ =>
      int4 id /\
      ((status = 404 /\ ~ conversation_exists db id) \/
       (status = 401 /\
        exists c, getConversation id db = (Ok (Some c), db) /\
                  sub ∉ user_id <$> members c))
  | Unhandled _ => ~ int4 id
  end.
Proof.
  intros Hid. unfold get_conversation, with_id. rewrite Hid.
  destruct (decide (int4 id)) as [Hrange|Hrange]; [|done].
  destruct (getConversation_reads id db) as [[c|] Hget]; rewrite Hget; simpl.
  - destruct (is_member sub c) eqn:Hmember; simpl.
    + split; [done|]. split_and!; [done..|]. by apply is_member_iff.
    + split; [done|]. split; [done|]. right. split; [done|].
      exists c. split; [done|]. intros Hin%is_member_iff. congruence.
  - split; [done|]. split; [done|]. left. split; [done|].
    by apply getConversation_None.
Qed.

Lemma get_conversation_answers_witness :
  (get_conversation "u1" "2147483648" chat_db).2 = chat_db /\
  match (get_conversation "u1" "2147483648" chat_db).1 with
  | Json status c =>
      int4 2147483648 /\
      status = 200 /\
      getConversation 2147483648 chat_db = (Ok (Some c), chat_db) /\
      "u1" ∈ user_id <$> members c
  | Failure status _ =>
      int4 2147483648 /\
      ((status = 404 /\ ~ conversation_exists chat_db 2147483648) \/
       (status = 401 /\
        exists c,
          getConversation 2147483648 chat_db = (Ok (Some c), chat_db) /\
          "u1" ∉ user_id <$> members c))
  | Unhandled _ => ~ int4 2147483648
  end.
Proof.
  apply (get_conversation_answers "u1" "2147483648" 2147483648 chat_db).
  reflexivity.
Defined.

Lemma getConversation_after_create
    db id userId participantId createdAt joinedAt :
  wf_db db -> conversation_exists db id ->
  (getConversation id
     (createConversation userId participantId createdAt joinedAt db).2).1 =
    (getConversation id db).1.
Proof.
  intros Hwf Hex.
  assert (exists db' extra,
    (createConversation userId participantId createdAt joinedAt db).2 = db' /\
    users db' = users db /\
    conversations db' =
      conversations db ++ [created_conversation db createdAt] /\
    conversationMembers db' = conversationMembers db ++ extra /\
    Forall (fun m => member_conversationId m = conversations_seq db) extra)
    as (db' & extra & -> & Hus & Hcs & Hms & Hextra).
  { destruct (decide (user_exists db userId /\ user_exists db participantId))
      as [[Hu Hp]|Hno].
    - destruct (createConversation_ok db userId participantId createdAt
                  joinedAt Hu Hp) as (db' & -> & ? & ? & ?).
      exists db', (created_members db userId participantId joinedAt).
      split_and!; try done. by repeat constructor.
    - unfold createConversation, mbind, Store_bind, bind, insert_conversation.
      unfold insert_conversationMembers. simpl.
      rewrite decide_False.
      + eexists _, []. simpl. split_and!; try done. by rewrite app_nil_r.
      + unfold user_exists. simpl. intros Hall. apply Hno.
        inversion Hall as [|? ? [_ ?] Hall']; subst.
        by inversion Hall' as [|? ? [_ ?] _]; subst. }
  assert (id <> conversations_seq db) as Hfresh.
  { intros ->. by apply (conversation_fresh db Hwf). }
  unfold getConversation, mbind, Store_bind, bind, query. simpl.
  rewrite Hcs, filter_app, (filter_cons_False _ (created_conversation _ _))
    by (simpl; congruence).
  rewrite filter_nil, app_nil_r.
  destruct (first_row _) as [c|]; simpl; [|done].
  rewrite Hms, Hus, innerJoin_app, filter_app.
  rewrite (filter_none _ (innerJoin extra _ _ _)); [by rewrite app_nil_r|].
  apply Forall_forall. intros [m u] [Hm _]%elem_of_innerJoin. simpl.
  rewrite Forall_forall in Hextra. rewrite (Hextra m Hm). congruence.
Qed.

(** Creating a conversation, or failing to, leaves every conversation that
    exists as [getConversation] shows it. *)
Theorem createConversation_frame db id userId participantId createdAt joinedAt :
  wf_db db -> conversation_exists db id ->
  (getConversation id
     (createConversation userId participantId createdAt joinedAt db).2).1 =
    (getConversation id db).1.
Proof. apply getConversation_after_create. Qed.

Lemma createConversation_frame_witness :
  (getConversation 1 (createConversation "u2" "ghost" 300 301 chat_db).2).1 =
    (getConversation 1 chat_db).1.
Proof.
  apply (createConversation_frame chat_db 1 "u2" "ghost" 300 301).
  - apply createConversation_wf, wf_initial_db. compute_done.
  - compute_done.
Defined.

(** Nothing looks for an existing direct conversation: a second
    [createConversation] for the same two users makes a second
    conversation, with the next id and the same two members, and the first
    one stays. *)
Theorem createConversation_twice db userId participantId t1 t2 t3 t4 :
  wf_db db -> user_exists db userId -> user_exists db participantId ->
  exists c1 db1 c2 db2 u p,
    createConversation userId participantId t1 t2 db = (Ok c1, db1) /\
    createConversation userId participantId t3 t4 db1 = (Ok c2, db2) /\
    conv_id c2 = conv_id c1 + 1 /\
    (getConversation (conv_id c1) db2).1 =
      Ok (Some (mkWithMembers c1 [u; p])) /\
    (getConversation (conv_id c2) db2).1 =
      Ok (Some (mkWithMembers c2 [u; p])) /\
    user_id u = userId /\ user_id p = participantId.
Proof.
  intros Hwf Hu Hp.
  destruct (createConversation_ok db userId participantId t1 t2 Hu Hp)
    as (db1 & Hc1 & Hus1 & Hcs1 & Hms1).
  destruct (getConversation_created db db1 userId participantId t1 t2
              Hwf Hu Hp Hus1 Hcs1 Hms1)
    as (u & p & Hget1 & Hinu & Hidu & Hinp & Hidp).
  assert (wf_db db1) as Hwf1.
  { pose proof (createConversation_wf userId participantId t1 t2 db Hwf) as H.
    by rewrite Hc1 in H. }
  assert (user_exists db1 userId /\ user_exists db1 participantId) as [Hu1 Hp1].
  { unfold user_exists. by rewrite Hus1. }
  destruct (createConversation_ok db1 userId participantId t3 t4 Hu1 Hp1)
    as (db2 & Hc2 & Hus2 & Hcs2 & Hms2).
  destruct (getConversation_created db1 db2 userId participantId t3 t4
              Hwf1 Hu1 Hp1 Hus2 Hcs2 Hms2)
    as (u' & p' & Hget2 & Hinu' & Hidu' & Hinp' & Hidp').
  assert (u' = u) as ->.
  { apply (unique_key_inj user_id (users db)); [apply Hwf| |done|congruence].
    by rewrite <- Hus1. }
  assert (p' = p) as ->.
  { apply (unique_key_inj user_id (users db)); [apply Hwf| |done|congruence].
    by rewrite <- Hus1. }
  assert (conversations_seq db1 = conversations_seq db + 1) as Hseq.
  { revert Hc1. unfold createConversation, mbind, Store_bind, bind.
    unfold insert_conversation, insert_conversationMembers. simpl.
    case_decide; simpl; by intros [= <-]. }
  exists (created_conversation db t1), db1, (created_conversation db1 t3), db2,
    u, p.
  split_and!; try done.
  - pose proof (getConversation_after_create db1 (conversations_seq db)
                  userId participantId t3 t4 Hwf1) as Hframe.
    rewrite Hc2, Hget1 in Hframe. simpl in *. apply Hframe.
    unfold conversation_exists. rewrite Hcs1, fmap_app.
    apply elem_of_app. right. by left.
  - change (conv_id (created_conversation db1 t3)) with (conversations_seq db1).
    by rewrite Hget2.
Qed.

Lemma createConversation_twice_witness :
  exists c1 db1 c2 db2 u p,
    createConversation "u1" "u2" 100 101 sample_db = (Ok c1, db1) /\
    createConversation "u1" "u2" 102 103 db1 = (Ok c2, db2) /\
    conv_id c2 = conv_id c1 + 1 /\
    (getConversation (conv_id c1) db2).1 =
      Ok (Some (mkWithMembers c1 [u; p])) /\
    (getConversation (conv_id c2) db2).1 =
      Ok (Some (mkWithMembers c2 [u; p])) /\
    user_id u = "u1" /\ user_id p = "u2".
Proof.
  apply (createConversation_twice sample_db "u1" "u2" 100 101 102 103).
  - apply wf_initial_db. compute_done.
  - compute_done.
  - compute_done.
Defined.

(* ===================================================================== *)
(** * More on messages *)
(* ===================================================================== *)

Lemma getMessages_unfold conversationId limit offset db :
  getMessages conversationId limit offset db =
    match limit_offset (default (Num 50) limit) (default (Num 0) offset)
            (message_rows db conversationId) with
    | Ok msgs => (Ok (with_sender <$> msgs), db)
    | Throw e => (Throw e, db)
    end.
Proof. done. Qed.

Lemma getMessages_Ok conversationId limit offset db page db' :
  getMessages conversationId limit offset db = (Ok page, db') ->
  db' = db /\
  exists n k,
    page = with_sender <$> take n (drop k (message_rows db conversationId)) /\
    page = with_sender <$>
             apply_limit (default (Num 50) limit)
               (drop k (message_rows db conversationId)).
Proof.
  rewrite getMessages_unfold.
  destruct (limit_offset _ _ _) as [msgs|e] eqn:Hpage; [|done].
  intros [= <- <-]. split; [done|].
  apply limit_offset_ok in Hpage as (n & k & Htake & Hlimit).
  exists n, k. split; by f_equal.
Qed.

Lemma message_rows_elem db conversationId r :
  r ∈ message_rows db conversationId <->
  r.1 ∈ messages db /\ r.2 ∈ users db /\ msg_senderId r.1 = user_id r.2 /\
  msg_conversationId r.1 = conversationId.
Proof.
  unfold message_rows. rewrite orderBy_Permutation, list_elem_of_filter.
  destruct r as [m u]. rewrite elem_of_innerJoin. simpl. tauto.
Qed.

(** Reading a page with [getMessages] leaves the database as it is.  Each
    entry of the page is a message of the table that belongs to the
    conversation asked for, with the user of the table who sent it.  A
    limit that is a number and not negative, 50 when none is given, bounds
    the length of the page; any other limit bounds nothing. *)
Theorem getMessages_page conversationId limit offset db page db' :
  getMessages conversationId limit offset db = (Ok page, db') ->
  db' = db /\
  (forall l, default (Num 50) limit = Num l -> 0 <= l ->
             (length page <= Z.to_nat l)%nat) /\
  Forall (fun r =>
            sender_message r ∈ messages db /\
            msg_conversationId (sender_message r) = conversationId /\
            sender r ∈ users db /\
            user_id (sender r) = msg_senderId (sender_message r)) page.
Proof.
  intros (-> & n & k & Htake & Hlimit)%getMessages_Ok.
  split; [done|]. split.
  - intros l Hl Hpos. rewrite Hlimit, Hl. unfold apply_limit.
    rewrite decide_True by done. rewrite length_fmap, length_take. lia.
  - rewrite Htake, Forall_fmap. apply Forall_take, Forall_drop, Forall_forall.
    intros r Hr%message_rows_elem. simpl. naive_solver.
Qed.

Lemma getMessages_page_witness :
  inbox_db = inbox_db /\
  (forall l, default (Num 50) (Some (Num (-5))) = Num l -> 0 <= l ->
             (length [mkWithSender (mkMessage 1 1 "u2" "hello" 150) bob]
                <= Z.to_nat l)%nat) /\
  Forall (fun r =>
            sender_message r ∈ messages inbox_db /\
            msg_conversationId (sender_message r) = 1 /\
            sender r ∈ users inbox_db /\
            user_id (sender r) = msg_senderId (sender_message r))
    [mkWithSender (mkMessage 1 1 "u2" "hello" 150) bob].
Proof.
  apply (getMessages_page 1 (Some (Num (-5))) None inbox_db
           [mkWithSender (mkMessage 1 1 "u2" "hello" 150) bob] inbox_db).
  reflexivity.
Defined.



Lemma createMessage_tables senderId conversationId content now db :
  users (createMessage senderId conversationId content now db).2 = users db /\
  (messages (createMessage senderId conversationId content now db).2 =
     messages db \/
   exists m, msg_conversationId m = conversationId /\
     messages (createMessage senderId conversationId content now db).2 =
       messages db ++ [m]).
Proof.
  unfold createMessage, insert_message.
  destruct (has_nul content); [split; [done|by left]|].
  case_decide; simpl; split; try done.
  - right. eexists. split; [|reflexivity]. done.
  - by left.
Qed.

(** A message created in one conversation, or refused, changes no page of
    any other conversation. *)
Theorem createMessage_other_conversations
    senderId conversationId content now db other limit offset :
  other <> conversationId ->
  (getMessages other limit offset
     (createMessage senderId conversationId content now db).2).1 =
    (getMessages other limit offset db).1.
Proof.
  intros Hother.
  assert (message_rows (createMessage senderId conversationId content now db).2
            other = message_rows db other) as Hrows.
  { unfold message_rows.
    destruct (createMessage_tables senderId conversationId content now db)
      as [-> [->|(m & Hm & ->)]]; [done|].
    rewrite innerJoin_app, filter_app.
    rewrite (filter_none _ (innerJoin [m] _ _ _)); [by rewrite app_nil_r|].
    apply Forall_forall. intros [m' u] [Hin _]%elem_of_innerJoin. simpl.
    apply list_elem_of_singleton in Hin as ->. congruence. }
  rewrite !getMessages_unfold, Hrows. by destruct (limit_offset _ _ _).
Qed.

Lemma createMessage_other_conversations_witness :
  (getMessages 1 None None (createMessage "u1" 2 "note" 400 inbox_db).2).1 =
    (getMessages 1 None None inbox_db).1.
Proof.
  apply (createMessage_other_conversations "u1" 2 "note" 400 inbox_db 1).
  lia.
Defined.

(* ===================================================================== *)
(** * More on the REST surface *)
(* ===================================================================== *)


(** A member of a conversation that [getConversation] returns is a user,
    and the conversation is in the table. *)
Lemma member_exists sub id c db :
  getConversation id db = (Ok (Some c), db) ->
  sub ∈ user_id <$> members c ->
  conversation_exists db id /\ user_exists db sub.
Proof.
  unfold getConversation, mbind, Store_bind, bind, query. simpl.
  destruct (first_row _) as [conversation|] eqn:Hfound; simpl; [|done].
  apply first_row_Some in Hfound as [Hin Hid]. intros [= <-]. simpl.
  intros (u & -> & Hu)%list_elem_of_fmap. split.
  - unfold conversation_exists. rewrite <- Hid. by apply list_elem_of_fmap_2.
  - apply list_elem_of_fmap in Hu as ([m u'] & -> & Hr).
    apply list_elem_of_filter in Hr as [_ Hr].
    apply elem_of_innerJoin in Hr as (_ & Hu' & _).
    by apply list_elem_of_fmap_2.
Qed.



(** POST /api/conversations/:id/messages always answers.  It answers 201
    only to a member of the conversation who sends a content that is not
    empty and holds no U+0000, under an id within the range of the id
    column; the message then carries the caller, the conversation, the
    content as sent and the time of the insert, it is appended to the
    table, and it is broadcast to the conversation.  Any other answer
    leaves the database and the hub as they were: 400 for an empty or
    missing content, for an id that is not a number or is beyond the range
    of the column, and for a member whose content holds U+0000; 401 for a
    missing conversation or a caller who is not a member. *)
Theorem post_message_answers sub id content now s :
  match (post_message sub id content now s).1 with
  | Json status m =>
      status = 201 /\
      exists C text c,
        parseInt id = Num C /\ int4 C /\
        content = Some text /\ text <> EmptyString /\ has_nul text = false /\
        getConversation C (server_db s) = (Ok (Some c), server_db s) /\
        sub ∈ user_id <$> members c /\
        m = mkMessage (messages_seq (server_db s)) C sub text now /\
        messages (server_db (post_message sub id content now s).2) =
          messages (server_db s) ++ [m] /\
        server_hub (post_message sub id content now s).2 =
          broadcastMessage C m (server_hub s)
  | Failure status _ =>
      (post_message sub id content now s).2 = s /\
      ((status = 400 /\
        (content = None \/ content = Some EmptyString \/ parseInt id = NaN \/
         (exists C, parseInt id = Num C /\ ~ int4 C) \/
         (exists C text c,
            parseInt id = Num C /\ content = Some text /\
            has_nul text = true /\
            getConversation C (server_db s) = (Ok (Some c), server_db s) /\
            sub ∈ user_id <$> members c))) \/
       (status = 401 /\
        exists C, parseInt id = Num C /\ int4 C /\
          (~ conversation_exists (server_db s) C \/
           exists c,
             getConversation C (server_db s) = (Ok (Some c), server_db s) /\
             sub ∉ user_id <$> members c)))
  | Unhandled _ => False
  end.
Proof.
  destruct s as [db hub]. unfold post_message, parsed, with_id. simpl.
  destruct content as [text|]; simpl; [|split; [done|]; left; tauto].
  case_decide as Htext; simpl; [split; [done|]; left; subst; tauto|].
  destruct (parseInt id) as [|C] eqn:Hid; simpl;
    [split; [done|]; left; tauto|].
  destruct (decide (int4 C)) as [Hrange|Hrange]; simpl.
  2:{ split; [done|]. left. split; [done|]. do 3 right. left. by exists C. }
  destruct (getConversation_reads C db) as [[c|] Hget]; rewrite Hget; simpl.
  - destruct (is_member sub c) eqn:Hmember; simpl.
    + apply is_member_iff in Hmember.
      destruct (member_exists sub C c db Hget Hmember) as [Hc Hu].
      unfold createMessage, mbind, Store_bind, bind, insert_message.
      destruct (has_nul text) eqn:Hnul; simpl.
      * split; [done|]. left. split; [done|]. do 4 right.
        by exists C, text, c.
      * rewrite decide_True by done. simpl. split; [done|].
        exists C, text, c. by split_and!.
    + split; [done|]. right. split; [done|]. exists C. split_and!; [done..|].
      right. exists c. split; [done|]. intros Hin%is_member_iff. congruence.
  - split; [done|]. right. split; [done|]. exists C. split_and!; [done..|].
    left. by apply getConversation_None.
Qed.

(** POST /api/conversations answers 201, with the conversation it has
    created, exactly when the body names a participant and both the caller
    and the participant are users; every other request gets 400. *)
Theorem post_conversations_answers sub participantId createdAt joinedAt db :
  (post_conversations sub participantId createdAt joinedAt db).1 =
    match participantId with
    | Some p =>
        if decide (user_exists db sub /\ user_exists db p)
        then Json 201 (created_conversation db createdAt)
        else Failure 400 "Failed to create conversation"
    | None => Failure 400 "Failed to create conversation"
    end.
Proof.
  destruct participantId as [p|]; [|done]. case_decide as Hboth.
  - destruct Hboth as [Hu Hp].
    destruct (createConversation_ok db sub p createdAt joinedAt Hu Hp)
      as (db' & Hcreate & _).
    by rewrite (post_conversations_created _ _ _ _ _ _ _ Hcreate).
  - destruct (createConversation_throws db sub p createdAt joinedAt Hboth)
      as (db' & Hcreate & _).
    by rewrite (post_conversations_failed _ _ _ _ _ _ _ Hcreate).
Qed.

(* ===================================================================== *)
(** * More on the list of conversations *)
(* ===================================================================== *)

(** The summary of each conversation of the user is in the answer of
    [getConversations]. *)
Lemma getConversations_elem db userId c :
  c ∈ conversations db -> member_of db userId c ->
  exists l, getConversations userId db = (Ok l, db) /\ enrich db userId c ∈ l.
Proof.
  intros Hc Hmember.
  unfold getConversations, mbind, Store_bind, bind, query. simpl.
  apply member_of_ids in Hmember.
  case_decide as Hnone; simpl.
  - exfalso. destruct (member_conversationId <$> _); [|done].
    by apply Exists_nil in Hmember.
  - eexists. split; [reflexivity|].
    rewrite orderBy_Permutation. apply list_elem_of_fmap_2.
    rewrite orderBy_Permutation. by apply list_elem_of_filter.
Qed.

(** The database [createConversation] leaves when both users exist. *)
Lemma createConversation_ok_db db userId participantId createdAt joinedAt :
  user_exists db userId -> user_exists db participantId ->
  createConversation userId participantId createdAt joinedAt db =
    (Ok (created_conversation db createdAt),
     mkDB (users db)
          (conversations db ++ [created_conversation db createdAt])
          (conversationMembers db ++
             created_members db userId participantId joinedAt)
          (messages db) (contacts db)
          (conversations_seq db + 1) (conversationMembers_seq db + 2)
          (messages_seq db) (contacts_seq db)).
Proof.
  intros Hu Hp.
  unfold createConversation, mbind, Store_bind, bind, insert_conversation.
  unfold insert_conversationMembers. simpl.
  rewrite decide_True; [done|].
  unfold conversation_exists, user_exists. simpl.
  assert (conversations_seq db ∈
            conv_id <$> conversations db ++ [created_conversation db createdAt]).
  { rewrite fmap_app. apply elem_of_app. right. by left. }
  by repeat constructor.
Qed.

(** What [enrich] makes of a conversation that has just been created, for
    each of its two members: no last message, and the user of the
    membership row that is not the viewer's. *)
Lemma enrich_created db db' userId participantId createdAt joinedAt :
  wf_db db ->
  user_exists db userId -> user_exists db participantId ->
  userId <> participantId ->
  createConversation userId participantId createdAt joinedAt db =
    (Ok (created_conversation db createdAt), db') ->
  exists u p,
    user_id u = userId /\ user_id p = participantId /\
    enrich db' userId (created_conversation db createdAt) =
      mkSummary (created_conversation db createdAt) None 0 (Some p) /\
    enrich db' participantId (created_conversation db createdAt) =
      mkSummary (created_conversation db createdAt) None 0 (Some u).
Proof.
  intros Hwf Hu Hp Hne Hcreate.
  rewrite (createConversation_ok_db db userId participantId createdAt joinedAt
             Hu Hp) in Hcreate.
  injection Hcreate as <-.
  destruct (filter_unique_key (users db) user_id userId
              (users_pk db Hwf) Hu) as (u & Hfu & Hidu & Hinu).
  destruct (filter_unique_key (users db) user_id participantId
              (users_pk db Hwf) Hp) as (p & Hfp & Hidp & Hinp).
  assert (forall v,
    filter (fun r : ConversationMember * User =>
              member_conversationId r.1 = conversations_seq db /\
              member_userId r.1 <> v)
      (innerJoin (conversationMembers db ++
                    created_members db userId participantId joinedAt)
         (users db) member_userId user_id) =
    filter (fun r : ConversationMember * User =>
              member_conversationId r.1 = conversations_seq db /\
              member_userId r.1 <> v)
      [(mkConversationMember (conversationMembers_seq db)
          (conversations_seq db) userId joinedAt, u);
       (mkConversationMember (conversationMembers_seq db + 1)
          (conversations_seq db) participantId joinedAt, p)]) as Hrows.
  { intros v.
    rewrite innerJoin_app, filter_app, (filter_none _ (innerJoin _ _ _ _)).
    2:{ apply Forall_forall. intros [m x] [Hm _]%elem_of_innerJoin. simpl.
        pose proof (conversationMembers_fk db Hwf) as Hfk.
        rewrite Forall_forall in Hfk. destruct (Hfk m Hm) as [Hex _].
        intros [Heq _]. apply (conversation_fresh db Hwf). by rewrite <- Heq. }
    unfold created_members. rewrite !innerJoin_cons, innerJoin_nil. simpl.
    by rewrite Hfu, Hfp. }
  assert (filter (fun m => msg_conversationId m = conversations_seq db)
            (messages db) = []) as Hnone.
  { apply filter_none.
    eapply Forall_impl; [apply (messages_fk db Hwf)|]. simpl.
    intros m [Hex _] Heq. apply (conversation_fresh db Hwf). by rewrite <- Heq. }
  exists u, p. split_and!; try done.
  - unfold enrich, last_message, other_member. simpl.
    rewrite Hnone, Hrows.
    rewrite filter_cons_False by (simpl; tauto).
    by rewrite filter_cons_True by (simpl; split; [done|congruence]).
  - unfold enrich, last_message, other_member. simpl.
    rewrite Hnone, Hrows.
    rewrite filter_cons_True by (simpl; split; [done|congruence]).
    by rewrite filter_cons_False by (simpl; tauto).
Qed.

(** After two different users have been put in a conversation, each of
    them finds it in [getConversations] with no last message, no unread
    message, and the other one as [otherMember]. *)
Theorem createConversation_other_member
    db userId participantId createdAt joinedAt :
  wf_db db ->
  user_exists db userId -> user_exists db participantId ->
  userId <> participantId ->
  exists c db' u p lu lp,
    createConversation userId participantId createdAt joinedAt db =
      (Ok c, db') /\
    user_id u = userId /\ user_id p = participantId /\
    getConversations userId db' = (Ok lu, db') /\
    mkSummary c None 0 (Some p) ∈ lu /\
    getConversations participantId db' = (Ok lp, db') /\
    mkSummary c None 0 (Some u) ∈ lp.
Proof.
  intros Hwf Hu Hp Hne.
  destruct (createConversation_ok db userId participantId createdAt joinedAt
              Hu Hp) as (db' & Hcreate & Hus & Hcs & Hms).
  assert (created_conversation db createdAt ∈ conversations db') as Hc.
  { rewrite Hcs. apply elem_of_app. right. by left. }
  assert (forall v, v = userId \/ v = participantId ->
            member_of db' v (created_conversation db createdAt)) as Hmember.
  { intros v Hv. unfold member_of. rewrite Hms. apply Exists_app. right.
    unfold created_members.
    destruct Hv as [->| ->]; [by left|right; by left]. }
  destruct (getConversations_elem db' userId _ Hc (Hmember _ (or_introl eq_refl)))
    as (lu & Hlu & Hinu).
  destruct (getConversations_elem db' participantId _ Hc
              (Hmember _ (or_intror eq_refl))) as (lp & Hlp & Hinp).
  destruct (enrich_created db db' userId participantId createdAt joinedAt
              Hwf Hu Hp Hne Hcreate) as (u & p & Hidu & Hidp & Hviewu & Hviewp).
  exists (created_conversation db createdAt), db', u, p, lu, lp.
  rewrite Hviewu in Hinu. rewrite Hviewp in Hinp.
  by split_and!.
Qed.

Lemma createConversation_other_member_witness :
  exists c db' u p lu lp,
    createConversation "u1" "u2" 100 101 sample_db = (Ok c, db') /\
    user_id u = "u1" /\ user_id p = "u2" /\
    getConversations "u1" db' = (Ok lu, db') /\
    mkSummary c None 0 (Some p) ∈ lu /\
    getConversations "u2" db' = (Ok lp, db') /\
    mkSummary c None 0 (Some u) ∈ lp.
Proof.
  apply (createConversation_other_member sample_db "u1" "u2" 100 101).
  - apply wf_initial_db. compute_done.
  - compute_done.
  - compute_done.
  - compute_done.
Defined.

(* ===================================================================== *)
(** * More on the push hub *)
(* ===================================================================== *)

Lemma set_add_elem ws s : ws ∈ set_add ws s.
Proof.
  unfold set_add. case_decide; [done|]. apply elem_of_app. right. by left.
Qed.

Lemma set_add_idemp ws s : set_add ws (set_add ws s) = set_add ws s.
Proof.
  unfold set_add at 1. by rewrite decide_True by apply set_add_elem.
Qed.

Lemma elem_of_set_add x ws s : x ∈ set_add ws s <-> x = ws \/ x ∈ s.
Proof.
  unfold set_add. case_decide as Hin.
  - split; [by right|]. by intros [->|?].
  - rewrite elem_of_app, list_elem_of_singleton. tauto.
Qed.

(** The hub after a join frame of a socket. *)
Lemma on_message_join ws C h :
  on_message ws (join C) h =
    mkHub (<[C := set_add ws (subscribers h C)]> (clients h)) (readyState h)
          (<[ws := C]> (ws_conversationId h)) (sent h).
Proof.
  unfold on_message, join, subscribers. rewrite decide_True by done.
  destruct (clients h !! C) as [s|] eqn:Hs; simpl.
  - by rewrite Hs.
  - rewrite lookup_insert_eq. by rewrite insert_insert_eq.
Qed.

Lemma subscribers_insert h clients' C s :
  clients h = <[C := s]> clients' -> subscribers h C = s.
Proof. unfold subscribers. intros ->. by rewrite lookup_insert_eq. Qed.

Lemma hub_step_Frame h ws data :
  hub_step h (Frame ws data) =
    if decide (is_Some (readyState h !! ws)) then on_message ws data h else h.
Proof. done. Qed.

Lemma hub_step_join h ws C :
  is_Some (readyState h !! ws) ->
  hub_step h (Frame ws (join C)) =
    mkHub (<[C := set_add ws (subscribers h C)]> (clients h)) (readyState h)
          (<[ws := C]> (ws_conversationId h)) (sent h).
Proof.
  intros Hknown. rewrite hub_step_Frame, decide_True by done.
  apply on_message_join.
Qed.

(** Joining a conversation twice is joining it once: the second frame
    leaves the hub as the first one left it. *)
Theorem join_twice h ws C :
  hub_step (hub_step h (Frame ws (join C))) (Frame ws (join C)) =
    hub_step h (Frame ws (join C)).
Proof.
  destruct (decide (is_Some (readyState h !! ws))) as [Hknown|Hnot].
  - rewrite (hub_step_join h) by done. rewrite hub_step_join by done.
    unfold subscribers at 1. simpl. rewrite lookup_insert_eq. simpl.
    by rewrite set_add_idemp, !insert_insert_eq.
  - rewrite (hub_step_Frame h), decide_False by done.
    by rewrite hub_step_Frame, decide_False.
Qed.

Lemma alive_known h ws : alive h ws -> is_Some (readyState h !! ws).
Proof. intros (s & -> & _). by eexists. Qed.

(** What the close event of a live socket does. *)
Lemma hub_step_Close_alive h ws :
  alive h ws ->
  hub_step h (Close ws) = on_close ws (set_readyState ws CLOSED h).
Proof. intros (s & Hs & Hne). simpl. rewrite Hs. by destruct s. Qed.

(** Events from elsewhere keep a live socket live, keep the conversation
    recorded on it, and keep the set of that conversation in the map. *)
Lemma foreign_step h ws C e :
  foreign_to ws e ->
  alive h ws /\ ws_conversationId h !! ws = Some C /\
    is_Some (clients h !! C) ->
  alive (hub_step h e) ws /\ ws_conversationId (hub_step h e) !! ws = Some C /\
    is_Some (clients (hub_step h e) !! C).
Proof.
  intros Hforeign (Halive & Htracked & Hset).
  pose proof (alive_known h ws Halive) as Hknown.
  destruct Halive as (st & Hst & Hne).
  destruct e as [ws'|ws' data|ws'|ws'|c m]; simpl in *.
  - case_decide as Hk; [by split_and!; [exists st|..]|].
    simpl. split_and!; [|done..]. exists st. split; [|done]. simpl.
    rewrite lookup_insert_ne; [done|]. by intros ->.
  - case_decide; [|by split_and!; [exists st|..]].
    destruct data as [|type c]; simpl; [by split_and!; [exists st|..]|].
    case_decide; simpl; [|by split_and!; [exists st|..]].
    split_and!.
    + by exists st.
    + by rewrite lookup_insert_ne.
    + destruct (decide (is_Some (clients h !! c))) as [[s Hs]|Hnone].
      * rewrite Hs. destruct (decide (c = C)) as [->|];
          [by rewrite lookup_insert_eq|by rewrite lookup_insert_ne].
      * rewrite lookup_insert_eq. destruct (decide (c = C)) as [->|];
          [by rewrite lookup_insert_eq|by rewrite !lookup_insert_ne].
  - case_decide as Hopen; [|by split_and!; [exists st|..]].
    simpl. split_and!; [|done..].
    destruct (decide (ws' = ws)) as [->|].
    + exists CLOSING. simpl. by rewrite lookup_insert_eq.
    + exists st. simpl. by rewrite lookup_insert_ne.
  - assert (forall x,
      alive (on_close ws' (set_readyState ws' x h)) ws /\
      ws_conversationId (on_close ws' (set_readyState ws' x h)) !! ws = Some C /\
      is_Some (clients (on_close ws' (set_readyState ws' x h)) !! C)) as Hclose.
    { intros x. split_and!.
      - exists st. rewrite on_close_readyState. simpl.
        by rewrite lookup_insert_ne.
      - unfold on_close. simpl.
        destruct (ws_conversationId h !! ws') as [c|]; [|done].
        case_decide; [|done]. by destruct (clients h !! c).
      - unfold on_close. simpl.
        destruct (ws_conversationId h !! ws') as [c|]; [|done].
        case_decide; [|done].
        destruct (clients h !! c) as [s|] eqn:Hs; [|done]. simpl.
        destruct (decide (c = C)) as [->|];
          [by rewrite lookup_insert_eq|by rewrite lookup_insert_ne]. }
    destruct (readyState h !! ws') as [[]|]; try apply Hclose;
      by split_and!; [exists st|..].
  - split_and!.
    + exists st. by rewrite broadcastMessage_readyState.
    + unfold broadcastMessage. by destruct (clients h !! c).
    + by rewrite broadcastMessage_clients.
Qed.

Lemma foreign_run h ws C events :
  Forall (foreign_to ws) events ->
  alive h ws /\ ws_conversationId h !! ws = Some C /\
    is_Some (clients h !! C) ->
  alive (hub_run h events) ws /\
    ws_conversationId (hub_run h events) !! ws = Some C /\
    is_Some (clients (hub_run h events) !! C).
Proof.
  intros Hforeign. revert h.
  induction Hforeign as [|e events He _ IH]; intros h Hinv; [done|].
  simpl. by apply IH, foreign_step.
Qed.

(** The cleanup at close works for a socket that joined one conversation
    with an id other than 0: whatever other sockets do and whatever is
    broadcast in between, the socket is out of the set of the conversation
    once it has closed. *)
Theorem close_after_join h ws C between :
  alive h ws -> C <> 0 -> Forall (foreign_to ws) between ->
  ws ∉ subscribers
         (hub_run h ([Frame ws (join C)] ++ between ++ [Close ws])) C.
Proof.
  intros Halive HC Hbetween.
  rewrite hub_run_app, hub_run_app.
  change (hub_run h [Frame ws (join C)]) with (hub_step h (Frame ws (join C))).
  destruct (foreign_run (hub_step h (Frame ws (join C))) ws C between Hbetween)
    as (Halive' & Htracked & [s Hs]).
  { rewrite hub_step_join by by apply alive_known. simpl. split_and!.
    - done.
    - by rewrite lookup_insert_eq.
    - by rewrite lookup_insert_eq. }
  set (h1 := hub_run (hub_step h (Frame ws (join C))) between) in *.
  change (hub_run h1 [Close ws]) with (hub_step h1 (Close ws)).
  rewrite hub_step_Close_alive by done.
  unfold on_close. simpl. rewrite Htracked, decide_True, Hs by done.
  unfold subscribers. simpl. rewrite lookup_insert_eq. simpl.
  unfold set_delete. intros [Hne _]%list_elem_of_filter. done.
Qed.

Lemma close_after_join_witness :
  2%nat ∉ subscribers
            (hub_run sample_hub
               ([Frame 2%nat (join 7)] ++
                [Frame 1%nat (join 7); Broadcast 7 sample_message] ++
                [Close 2%nat])) 7.
Proof.
  apply (close_after_join sample_hub 2%nat 7
           [Frame 1%nat (join 7); Broadcast 7 sample_message]).
  - exists OPEN. split; [reflexivity|discriminate].
  - lia.
  - repeat constructor; simpl; lia.
Defined.

Lemma subscribers_on_close_other ws h C :
  ws_conversationId h !! ws <> Some C ->
  subscribers (on_close ws h) C = subscribers h C.
Proof.
  intros Htracked. unfold on_close.
  destruct (ws_conversationId h !! ws) as [c|]; [|done].
  case_decide; [|done]. destruct (clients h !! c) as [s|]; [|done].
  unfold subscribers. simpl. rewrite lookup_insert_ne; [done|]. congruence.
Qed.

Lemma on_close_zero ws h :
  ws_conversationId h !! ws = Some 0 -> on_close ws h = h.
Proof. intros Htracked. unfold on_close. rewrite Htracked. by case_decide. Qed.

(** The cleanup at close misses two cases.  It only looks at the
    conversation joined last, so a socket that joined [C] and then another
    conversation stays in the set of [C] after it has closed; and it reads
    the id 0 as no id, so a socket that joined conversation 0 stays in its
    set as well. *)
Theorem close_misses h ws C D :
  alive h ws -> C <> D ->
  ws ∈ subscribers
         (hub_run h [Frame ws (join C); Frame ws (join D); Close ws]) C /\
  ws ∈ subscribers (hub_run h [Frame ws (join 0); Close ws]) 0.
Proof.
  intros Halive HCD. pose proof (alive_known h ws Halive) as Hknown.
  assert (forall h', readyState h' = readyState h -> alive h' ws) as Hstill.
  { intros h' Hrs. destruct Halive as (st & Hst & Hne). exists st.
    by rewrite Hrs. }
  split.
  - change (hub_run h [Frame ws (join C); Frame ws (join D); Close ws])
      with (hub_step (hub_step (hub_step h (Frame ws (join C)))
                        (Frame ws (join D))) (Close ws)).
    rewrite (hub_step_join h) by done. rewrite hub_step_join by done.
    rewrite hub_step_Close_alive by by apply Hstill.
    rewrite subscribers_on_close_other.
    + unfold subscribers at 1. simpl. rewrite lookup_insert_ne by done.
      rewrite lookup_insert_eq. simpl. apply set_add_elem.
    + simpl. rewrite lookup_insert_eq. congruence.
  - change (hub_run h [Frame ws (join 0); Close ws])
      with (hub_step (hub_step h (Frame ws (join 0))) (Close ws)).
    rewrite (hub_step_join h) by done.
    rewrite hub_step_Close_alive by by apply Hstill.
    rewrite on_close_zero by (simpl; by rewrite lookup_insert_eq).
    unfold subscribers at 1. simpl. rewrite lookup_insert_eq. simpl.
    apply set_add_elem.
Qed.

Lemma close_misses_witness :
  2%nat ∈ subscribers
            (hub_run sample_hub
               [Frame 2%nat (join 7); Frame 2%nat (join 8); Close 2%nat]) 7 /\
  2%nat ∈ subscribers
            (hub_run sample_hub [Frame 2%nat (join 0); Close 2%nat]) 0.
Proof.
  apply (close_misses sample_hub 2%nat 7 8).
  - exists OPEN. split; [reflexivity|discriminate].
  - lia.
Defined.

Lemma subscribers_on_close ws' h C ws :
  ws ∈ subscribers (on_close ws' h) C -> ws ∈ subscribers h C.
Proof.
  unfold on_close. destruct (ws_conversationId h !! ws') as [c|]; [|done].
  case_decide; [|done]. destruct (clients h !! c) as [s|] eqn:Hs; [|done].
  unfold subscribers. simpl. destruct (decide (c = C)) as [->|].
  - rewrite lookup_insert_eq, Hs. simpl. unfold set_delete.
    by intros [_ ?]%list_elem_of_filter.
  - by rewrite lookup_insert_ne.
Qed.

(** What the state of the hub remembers of the events that led to it: a
    socket it knows has connected, a socket in the set of a conversation
    has sent a join frame for it, and an envelope in the log was sent by a
    broadcast, to a socket that had connected and joined the conversation
    of the broadcast. *)
Lemma hub_history events :
  (forall ws,
     is_Some (readyState (hub_run hub_init events) !! ws) ->
     Connection ws ∈ events) /\
  (forall C ws,
     ws ∈ subscribers (hub_run hub_init events) C ->
     Frame ws (join C) ∈ events) /\
  (forall ws env,
     (ws, env) ∈ sent (hub_run hub_init events) ->
     envelope_type env = "message:new" /\
     Connection ws ∈ events /\
     exists C, Frame ws (join C) ∈ events /\
               Broadcast C (envelope_data env) ∈ events).
Proof.
  induction events as [|e events IH] using rev_ind.
  - split_and!.
    + intros ws [s Hs]. simpl in Hs. by rewrite lookup_empty in Hs.
    + intros C ws Hin. unfold subscribers in Hin. simpl in Hin.
      rewrite lookup_empty in Hin. by apply elem_of_nil in Hin.
    + intros ws env Hin. by apply elem_of_nil in Hin.
  - rewrite hub_run_app. set (h := hub_run hub_init events) in *.
    change (hub_run h [e]) with (hub_step h e).
    destruct IH as (Hk & Hj & Hs).
    assert (forall ws, is_Some (readyState h !! ws) ->
                       Connection ws ∈ events ++ [e]) as Hk'.
    { intros ws Hws. apply elem_of_app. left. by apply Hk. }
    assert (forall C ws, ws ∈ subscribers h C ->
                         Frame ws (join C) ∈ events ++ [e]) as Hj'.
    { intros C ws Hws. apply elem_of_app. left. by apply Hj. }
    assert (forall ws env, (ws, env) ∈ sent h ->
              envelope_type env = "message:new" /\
              Connection ws ∈ events ++ [e] /\
              exists C, Frame ws (join C) ∈ events ++ [e] /\
                        Broadcast C (envelope_data env) ∈ events ++ [e])
      as Hs'.
    { intros ws env Hin. destruct (Hs ws env Hin) as (? & ? & C & ? & ?).
      split_and!; [done|by apply elem_of_app; left|].
      exists C. split; apply elem_of_app; by left. }
    assert (e ∈ events ++ [e]) as He.
    { apply elem_of_app. right. by left. }
    clear Hk Hj Hs.
    destruct e as [ws'|ws' data|ws'|ws'|c m].
    + simpl. case_decide as Hknown; [done|]. split_and!; [|done..].
      intros ws. simpl. destruct (decide (ws' = ws)) as [->|]; [done|].
      rewrite lookup_insert_ne by done. apply Hk'.
    + rewrite hub_step_Frame. case_decide as Hknown; [|done].
      destruct data as [|type c]; [done|].
      destruct (decide (type = "join")) as [->|Htype].
      2:{ unfold on_message. by rewrite decide_False. }
      change (Parsed "join" c) with (join c) in *.
      rewrite on_message_join. split_and!; [done| |done].
      intros C ws. unfold subscribers at 1. simpl.
      destruct (decide (c = C)) as [->|].
      * rewrite lookup_insert_eq. simpl.
        intros [->|Hin]%elem_of_set_add; [done|by apply Hj'].
      * rewrite lookup_insert_ne by done. apply Hj'.
    + simpl. case_decide as Hopen; [|done]. split_and!; [|done..].
      intros ws. simpl. destruct (decide (ws' = ws)) as [->|].
      * intros _. apply Hk'. by rewrite Hopen.
      * rewrite lookup_insert_ne by done. apply Hk'.
    + assert (forall x, is_Some (readyState h !! ws') ->
        (forall ws,
           is_Some (readyState (on_close ws' (set_readyState ws' x h)) !! ws) ->
           Connection ws ∈ events ++ [Close ws']) /\
        (forall C ws,
           ws ∈ subscribers (on_close ws' (set_readyState ws' x h)) C ->
           Frame ws (join C) ∈ events ++ [Close ws']) /\
        (forall ws env,
           (ws, env) ∈ sent (on_close ws' (set_readyState ws' x h)) ->
           envelope_type env = "message:new" /\
           Connection ws ∈ events ++ [Close ws'] /\
           exists C, Frame ws (join C) ∈ events ++ [Close ws'] /\
                     Broadcast C (envelope_data env) ∈ events ++ [Close ws']))
        as Hclose.
      { intros x Hknown. split_and!.
        - intros ws. rewrite on_close_readyState. simpl.
          destruct (decide (ws' = ws)) as [->|]; [by intros _; apply Hk'|].
          rewrite lookup_insert_ne by done. apply Hk'.
        - intros C ws Hin%subscribers_on_close. by apply Hj'.
        - intros ws env. rewrite on_close_sent. apply Hs'. }
      simpl. destruct (readyState h !! ws') as [[]|] eqn:Hws';
        try (by apply Hclose); done.
    + change (hub_step h (Broadcast c m)) with (broadcastMessage c m h).
      split_and!.
      * intros ws. rewrite broadcastMessage_readyState. apply Hk'.
      * intros C ws. unfold subscribers.
        rewrite broadcastMessage_clients. apply Hj'.
      * intros ws env. rewrite broadcastMessage_sent.
        intros [Hold|Hnew]%elem_of_app; [by apply Hs'|].
        apply list_elem_of_fmap in Hnew as (client & [= -> ->] & Hclient).
        apply list_elem_of_filter in Hclient as [Hopen Hin].
        split_and!; [done| |].
        -- apply Hk'. by rewrite Hopen.
        -- exists c. split; [by apply Hj'|done].
Qed.

(** Nothing is pushed without a cause: every envelope the hub has sent is a
    [message:new] envelope, sent by a broadcast of its message to a
    conversation that the receiving socket, once connected, had joined. *)
Theorem delivery_has_cause events ws env :
  (ws, env) ∈ sent (hub_run hub_init events) ->
  envelope_type env = "message:new" /\
  Connection ws ∈ events /\
  exists C, Frame ws (join C) ∈ events /\
            Broadcast C (envelope_data env) ∈ events.
Proof. apply hub_history. Qed.

Lemma delivery_has_cause_witness :
  envelope_type (mkEnvelope "message:new" sample_message) = "message:new" /\
  Connection 1%nat ∈
    [Connection 1%nat; Frame 1%nat (join 7); Broadcast 7 sample_message] /\
  exists C,
    Frame 1%nat (join C) ∈
      [Connection 1%nat; Frame 1%nat (join 7); Broadcast 7 sample_message] /\
    Broadcast C (envelope_data (mkEnvelope "message:new" sample_message)) ∈
      [Connection 1%nat; Frame 1%nat (join 7); Broadcast 7 sample_message].
Proof.
  apply (delivery_has_cause
           [Connection 1%nat; Frame 1%nat (join 7); Broadcast 7 sample_message]
           1%nat (mkEnvelope "message:new" sample_message)).
  compute_done.
Defined.

(* ===================================================================== *)
(** * Reading after writing *)
(* ===================================================================== *)

Section SortingLast.
Context {A : Type} (before : A -> A -> bool).

(** A row that may come after every other row is sorted to the end. *)
Lemma insert_sorted_snoc a l x :
  before a x = true ->
  insert_sorted before a (l ++ [x]) = insert_sorted before a l ++ [x].
Proof.
  intros Hax. induction l as [|y l IH]; simpl.
  - by rewrite Hax.
  - destruct (before a y); [done|]. by rewrite IH.
Qed.

Lemma orderBy_snoc l x :
  Forall (fun a => before a x = true) l ->
  orderBy before (l ++ [x]) = orderBy before l ++ [x].
Proof.
  induction 1 as [|a l Ha Hl IH]; [done|].
  simpl. rewrite IH. by apply insert_sorted_snoc.
Qed.
End SortingLast.

(** [createMessage] stores a message for any user and any conversation of
    the tables when the content holds no U+0000; the store does not ask
    whether the user is a member.  When the message is newer than every
    message the conversation has, a later [getMessages] from offset 0
    shows it at the end: a page with room for it holds the older messages
    and then the new one, a page too short for the older messages holds
    older messages only.  With the default limit this means that a
    conversation that holds 50 messages shows no newer one on its default
    page. *)
Theorem createMessage_then_getMessages db senderId conversationId content now limit :
  wf_db db ->
  conversation_exists db conversationId -> user_exists db senderId ->
  has_nul content = false ->
  Forall (fun m => msg_createdAt m < now)
    (conversation_messages db conversationId) ->
  0 <= limit <= max_bigint ->
  exists db' page',
    createMessage senderId conversationId content now db =
      (Ok (mkMessage (messages_seq db) conversationId senderId content now),
       db') /\
    getMessages conversationId (Some (Num limit)) (Some (Num 0)) db' =
      (Ok page', db') /\
    ((length (conversation_messages db conversationId) < Z.to_nat limit)%nat ->
     exists older,
       sender_message <$> page' =
         older ++
         [mkMessage (messages_seq db) conversationId senderId content now] /\
       older ≡ₚ conversation_messages db conversationId) /\
    ((Z.to_nat limit <= length (conversation_messages db conversationId))%nat ->
     length page' = Z.to_nat limit /\
     Forall (fun r => msg_createdAt (sender_message r) < now) page').
Proof.
  intros Hwf Hc Hu Hnul Hnewest [Hlimit _].
  set (m := mkMessage (messages_seq db) conversationId senderId content now).
  destruct (filter_unique_key (users db) user_id senderId
              (users_pk db Hwf) Hu) as (u & Hfu & Hidu & Hinu).
  assert (exists db',
    createMessage senderId conversationId content now db = (Ok m, db') /\
    users db' = users db /\ messages db' = messages db ++ [m])
    as (db' & Hcreate & Hus & Hms).
  { unfold createMessage, insert_message.
    rewrite Hnul, decide_True by done. by eexists. }
  assert (message_rows db' conversationId =
          message_rows db conversationId ++ [(m, u)]) as Hrows.
  { unfold message_rows. rewrite Hus, Hms, innerJoin_app, filter_app.
    rewrite innerJoin_cons, innerJoin_nil. simpl. rewrite Hfu. simpl.
    rewrite (filter_cons_True _ (m, u)) by done. rewrite filter_nil.
    apply (orderBy_snoc (asc (fun r : Message * User => msg_createdAt r.1))).
    apply Forall_forall. intros [m' u'] [Hconv Hin]%list_elem_of_filter.
    apply elem_of_innerJoin in Hin as [Hm' _]. simpl in *.
    unfold asc. simpl. apply Z.leb_le.
    rewrite Forall_forall in Hnewest. apply Z.lt_le_incl, Hnewest.
    by apply list_elem_of_filter. }
  destruct (getMessages_rows db conversationId Hwf) as [Hfst _].
  assert (fst <$> message_rows db conversationId ≡ₚ
          conversation_messages db conversationId) as Hperm.
  { unfold message_rows. by rewrite orderBy_Permutation, Hfst. }
  assert (length (message_rows db conversationId) =
          length (conversation_messages db conversationId)) as Hlen.
  { apply Permutation_length in Hperm. by rewrite length_fmap in Hperm. }
  exists db'. rewrite getMessages_unfold. cbn [from_option id].
  rewrite limit_offset_Num by lia. change (Z.to_nat 0) with 0%nat.
  rewrite drop_0, Hrows. eexists. split_and!; [done..| |].
  - intros Hshort. exists (fst <$> message_rows db conversationId).
    split; [|done].
    rewrite take_ge by (rewrite length_app; simpl; lia).
    rewrite <- list_fmap_compose, fmap_app. done.
  - intros Hfull. rewrite take_app_le by lia. split.
    + rewrite length_fmap, length_take. lia.
    + rewrite Forall_fmap. apply Forall_take, Forall_forall.
      intros r Hr%message_rows_elem. simpl.
      rewrite Forall_forall in Hnewest. apply Hnewest.
      apply list_elem_of_filter. naive_solver.
Qed.

Lemma createMessage_then_getMessages_witness :
  exists db' page',
    createMessage "u1" 1 "again" 160 inbox_db =
      (Ok (mkMessage (messages_seq inbox_db) 1 "u1" "again" 160), db') /\
    getMessages 1 (Some (Num 50)) (Some (Num 0)) db' = (Ok page', db') /\
    ((length (conversation_messages inbox_db 1) < Z.to_nat 50)%nat ->
     exists older,
       sender_message <$> page' =
         older ++ [mkMessage (messages_seq inbox_db) 1 "u1" "again" 160] /\
       older ≡ₚ conversation_messages inbox_db 1) /\
    ((Z.to_nat 50 <= length (conversation_messages inbox_db 1))%nat ->
     length page' = Z.to_nat 50 /\
     Forall (fun r => msg_createdAt (sender_message r) < 160) page').
Proof.
  apply (createMessage_then_getMessages inbox_db "u1" 1 "again" 160 50).
  - change (wf_db (createConversation "u1" "u1" 120 121
                     (createMessage "u2" 1 "hello" 150 chat_db).2).2).
    apply createConversation_wf, createMessage_wf, createConversation_wf,
      wf_initial_db. compute_done.
  - compute_done.
  - compute_done.
  - reflexivity.
  - compute_done.
  - unfold max_bigint. lia.
Defined.

(** Under the constraints of the schema, [getContacts] returns one user
    for each contact row of the caller, in the order of the rows: the user
    the row points to. *)
Theorem getContacts_rows db userId :
  wf_db db ->
  exists l,
    getContacts userId db = (Ok l, db) /\
    user_id <$> l =
      contact_contactId <$>
        filter (fun c => contact_userId c = userId) (contacts db) /\
    Forall (fun u => u ∈ users db) l.
Proof.
  intros Hwf. eexists. split; [reflexivity|].
  destruct (innerJoin_foreign_key (contacts db) (users db)
              contact_contactId user_id) as [Hfst Hsnd].
  { apply Hwf. }
  { eapply Forall_impl; [apply (contacts_fk db Hwf)|]. by intros c [_ ?]. }
  split.
  - rewrite <- Hfst at 2.
    rewrite <- (filter_fst_fmap (fun c => contact_userId c = userId)).
    rewrite <- !list_fmap_compose. apply Forall_fmap_ext.
    apply Forall_forall. intros r [_ Hr]%list_elem_of_filter.
    rewrite Forall_forall in Hsnd. by apply Hsnd.
  - rewrite Forall_fmap. apply Forall_forall.
    intros r [_ Hr]%list_elem_of_filter.
    rewrite Forall_forall in Hsnd. by apply Hsnd.
Qed.

Lemma getContacts_rows_witness :
  exists l,
    getContacts "u1" (addContact "u1" "bob@example.com" 5 sample_db).2 =
      (Ok l, (addContact "u1" "bob@example.com" 5 sample_db).2) /\
    user_id <$> l =
      contact_contactId <$>
        filter (fun c => contact_userId c = "u1")
          (contacts (addContact "u1" "bob@example.com" 5 sample_db).2) /\
    Forall (fun u => u ∈ users (addContact "u1" "bob@example.com" 5 sample_db).2)
      l.
Proof.
  apply (getContacts_rows (addContact "u1" "bob@example.com" 5 sample_db).2 "u1").
  apply addContact_wf, wf_initial_db. compute_done.
Defined.
